(** * pymisc-utils: missing-data utilities and the NaN-aware label encoder

    A shallow embedding of

    - [misc/missingdata/nan_label_encoder.py] (class [NaNLabelEncoder]) and
    - [misc/missing_data_utils.py] (the MCAR / NMAR / MAR injectors, the
      dispatcher and the stratified splitter),

    together with the numpy / pandas primitives these two files call
    ([np.unique], [np.isin], [np.intersect1d], [np.setdiff1d],
    [np.searchsorted], [pd.isnull], boolean-mask assignment, fancy
    indexing).  Arrays that the Python code mutates in place live in an
    explicit store, so that aliasing between the caller's array and the
    callee's parameter is visible. *)

From Stdlib Require Import ZArith QArith String Ascii List Lia Bool.
From stdpp Require Import base tactics option list sets sorting strings.

Local Open Scope string_scope.
Local Open Scope list_scope.
Local Open Scope nat_scope.

(** * Part I: the programs *)

(** ** Python's ordering on [str]

    Python compares strings lexicographically by code point; on the byte
    strings of this model that is [String.compare].  The non-strict order
    is stdpp's [String.le]. *)

Module StrOrd.

Definition lt (a b : string) : Prop := String.ltb a b = true.

#[global] Instance lt_dec (a b : string) : Decision (lt a b).
Proof. unfold lt. apply bool_eq_dec. Defined.

End StrOrd.

(** ** numpy / pandas primitives used by the two source files *)

Module Np.

Section unique.
Context {A : Type} (R : relation A).
Context `{!∀ x y, Decision (R x y)} `{!EqDecision A}.

(** [mask[1:] = aux[1:] != aux[:-1]]: an element of the sorted array is
    kept when it differs from its predecessor. *)
Fixpoint mask_repeats (prev : A) (l : list A) : list A :=
  match l with
  | [] => []
  | x :: l' =>
      if decide (x = prev) then mask_repeats prev l'
      else x :: mask_repeats x l'
  end.

Definition drop_repeats (l : list A) : list A :=
  match l with
  | [] => []
  | x :: l' => x :: mask_repeats x l'
  end.

(** [np.unique(ar)]: sort, then drop repeated neighbours. *)
Definition unique (l : list A) : list A := drop_repeats (merge_sort R l).

(** [np.isin(element, test_elements)], one boolean per element. *)
Definition isin (l test : list A) : list bool :=
  map (fun x => bool_decide (x ∈ test)) l.

(** [np.intersect1d(ar1, ar2)]: the sorted unique values in both. *)
Definition intersect1d (a b : list A) : list A :=
  filter (fun x => x ∈ unique b) (unique a).

(** [np.setdiff1d(ar1, ar2)]: the sorted unique values of [ar1] that are
    not in [ar2]. *)
Definition setdiff1d (a b : list A) : list A :=
  filter (fun x => x ∉ unique b) (unique a).

(** Strict version of the order, for "ascending without repeats". *)
Definition strict (x y : A) : Prop := R x y ∧ x ≠ y.

End unique.

Section searchsorted.
Context {A : Type} (ltb : A → A → bool).

(** The inner loop of numpy's binary search ([npy_binsearch], side
    "left"):

    [while (min_idx < max_idx) { mid_idx = min_idx + ((max_idx - min_idx) >> 1);
       if (arr[mid_idx] < key) min_idx = mid_idx + 1; else max_idx = mid_idx; }]

    The interval shrinks at every turn, so [max_idx - min_idx] turns are
    enough ([bisect_exit] below). *)
Fixpoint bisect (fuel : nat) (arr : list A) (key : A)
    (min_idx max_idx : nat) : nat * nat :=
  match fuel with
  | 0 => (min_idx, max_idx)
  | S fuel' =>
      if decide (min_idx < max_idx) then
        let mid_idx := min_idx + (max_idx - min_idx) / 2 in
        match arr !! mid_idx with
        | Some mid_val =>
            if ltb mid_val key
            then bisect fuel' arr key (mid_idx + 1) max_idx
            else bisect fuel' arr key min_idx mid_idx
        | None => (min_idx, max_idx)
        end
      else (min_idx, max_idx)
  end.

(** The loop over the keys.  numpy keeps the bounds of the previous
    search: after a smaller key only [max_idx] is reset, otherwise
    [min_idx] is reset and [max_idx] is the previous result plus one. *)
Fixpoint binsearch (arr : list A) (last_key : A) (min_idx max_idx : nat)
    (keys : list A) : list nat :=
  match keys with
  | [] => []
  | key :: keys' =>
      let arr_len := length arr in
      let '(lo, hi) :=
        if ltb last_key key then (min_idx, arr_len)
        else (0, if decide (max_idx < arr_len) then max_idx + 1 else arr_len) in
      let '(lo', hi') := bisect (hi - lo) arr key lo hi in
      lo' :: binsearch arr key lo' hi' keys'
  end.

(** [np.searchsorted(a, v)] with the default [side='left'].  numpy documents
    it for an ascending [a] only; the encoder calls it on [classes_], where
    the marker is appended after sorting, so the model is numpy's algorithm
    itself, whose result is defined on any array. *)
Definition searchsorted (arr keys : list A) : list nat :=
  match keys with
  | [] => []
  | key0 :: _ => binsearch arr key0 0 (length arr) keys
  end.

(** Number of entries of [arr] below [key]: in an ascending array, the
    insertion point that [np.searchsorted] is documented to return. *)
Definition rank (arr : list A) (key : A) : nat :=
  length (filter (fun x => ltb x key = true) arr).

End searchsorted.

Section masks.
Context {A : Type}.

(** [a[mask]]: the entries selected by a boolean mask. *)
Fixpoint mask_select (mask : list bool) (a : list A) : list A :=
  match mask, a with
  | m :: mask', x :: a' =>
      if m then x :: mask_select mask' a' else mask_select mask' a'
  | _, _ => []
  end.

(** [a[mask] = v]: the array after a masked assignment of a scalar. *)
Definition mask_assign (mask : list bool) (v : A) (a : list A) : list A :=
  zip_with (fun (m : bool) x => if m then v else x) mask a.

End masks.

End Np.

(** ** Python results: a value or a raised exception *)

Module Py.

Inductive exn : Type :=
| NotFittedError (attribute : string)
| ValueError (msg : string)
(** ["y contains new labels: %s" % str(diff)], raised by [transform] *)
| ValueError_new_labels (diff : list string)
(** ["y contains new labels: {}".format(str(diff))], raised by
    [inverse_transform] *)
| ValueError_new_codes (diff : list Z)
| TypeError (msg : string)
| NameError (name : string)
| IndexError (msg : string).

Inductive result (A : Type) : Type :=
| Ok (a : A)
| Raise (e : exn).
Arguments Ok {A} a.
Arguments Raise {A} e.

(** Statements that read and write a store [S]; an exception keeps the
    writes made before it was raised. *)
Definition M (S A : Type) : Type := S → result A * S.

Definition raise {S A} (e : exn) : M S A := fun σ => (Raise e, σ).

#[global] Instance M_ret {S} : MRet (M S) := fun A a σ => (Ok a, σ).
#[global] Instance M_bind {S} : MBind (M S) := fun A B k m σ =>
  match m σ with
  | (Ok a, σ') => k a σ'
  | (Raise e, σ') => (Raise e, σ')
  end.
Definition get {S} : M S S := fun σ => (Ok σ, σ).
Definition put {S} (σ : S) : M S unit := fun _ => (Ok tt, σ).
Definition lift {S A} (r : result A) : M S A := fun σ => (r, σ).

(** Python's [a[i]] index normalisation on a sequence of length [n]. *)
Definition index (n : nat) (i : Z) : option nat :=
  if decide (0 ≤ i < Z.of_nat n)%Z then Some (Z.to_nat i)
  else if decide (- Z.of_nat n ≤ i < 0)%Z then Some (Z.to_nat (Z.of_nat n + i))
  else None.

End Py.

(** ** [misc/missingdata/nan_label_encoder.py] *)

Module Encoder.
Import Py.

(** An entry of a label array: a [str], or a value for which [pd.isnull]
    holds ([np.nan], [None]). *)
Definition label : Type := option string.

Definition isnull {A} (v : option A) : bool :=
  match v with None => true | Some _ => false end.

(** An entry of the float array that [transform] returns and
    [inverse_transform] reads: an integral float or [np.nan]. *)
Inductive code : Type :=
| Code (z : Z)
| NaN.

#[global] Instance code_eq_dec : EqDecision code.
Proof. solve_decision. Defined.

Definition code_isnull (c : code) : bool :=
  match c with NaN => true | Code _ => false end.

(** The attributes of a [NaNLabelEncoder] instance.  [classes_] is [None]
    until [fit] sets the attribute. *)
Record NaNLabelEncoder : Type := {
  missing_value_marker : label;
  labels : option (list string);
  treat_unknown_as_missing : bool;
  classes_ : option (list string);
}.

(** [__init__(self, missing_value_marker='---NaN---', labels=None,
    treat_unknown_as_missing=False)] *)
Definition __init__ (missing_value_marker : label) (labels : option (list string))
    (treat_unknown_as_missing : bool) : NaNLabelEncoder :=
  {| missing_value_marker := missing_value_marker;
     labels := labels;
     treat_unknown_as_missing := treat_unknown_as_missing;
     classes_ := None |}.

Definition default_marker : string := "---NaN---".

(** [np.unique] on an array of [str]. *)
Definition unique_str : list string → list string := Np.unique String.le.

(** The [str] entries of an array (all of them once the nulls are masked
    out). *)
Definition strings_of (y : list label) : list string := omap id y.

Definition fit (self : NaNLabelEncoder) (y : list label)
    : result NaNLabelEncoder :=
  match missing_value_marker self with
  | None =>
      Raise (ValueError ("[nan_label_encoder]: cannot use pd.isnull objects as the "
                         ++ "internal missing value marker"))
  | Some marker =>
      if bool_decide (Some marker ∈ y) then
        Raise (ValueError ("[nan_label_encoder]: found the missing value marker in "
                           ++ "the array"))
      else
        let m_nan := isnull <$> y in
        let classes := unique_str (strings_of (Np.mask_select (negb <$> m_nan) y)) in
        let classes :=
          match labels self with
          | Some ls => unique_str (classes ++ ls)
          | None => classes
          end in
        Ok {| missing_value_marker := Some marker;
              labels := Some classes;
              treat_unknown_as_missing := treat_unknown_as_missing self;
              classes_ := Some (classes ++ [marker]) |}
  end.

Definition get_num_classes (self : NaNLabelEncoder) : result nat :=
  match labels self with
  | Some ls => Ok (length ls)
  | None => Raise (TypeError "object of type 'NoneType' has no len()")
  end.

(** [check_is_fitted(self, 'classes_')] *)
Definition check_is_fitted (self : NaNLabelEncoder) : result (list string) :=
  match classes_ self with
  | Some cs => Ok cs
  | None => Raise (NotFittedError "classes_")
  end.

Definition transform (self : NaNLabelEncoder) (y : list label)
    : result (list code) :=
  match check_is_fitted self with
  | Raise e => Raise e
  | Ok classes_ =>
      let m_nan := isnull <$> y in
      let m_nan :=
        if treat_unknown_as_missing self then
          let m_known := Np.isin y (Some <$> classes_) in
          zip_with orb m_nan (negb <$> m_known)
        else m_nan in
      let y := Np.mask_assign m_nan (missing_value_marker self) y in
      match mapM id y with
      | None =>
          (* only with a null marker, which [fit] rejects *)
          Raise (TypeError "'<' not supported between instances")
      | Some y =>
          let classes := unique_str y in
          if decide (length (Np.intersect1d String.le classes classes_)
                     < length classes) then
            Raise (ValueError_new_labels (Np.setdiff1d String.le classes classes_))
          else
            let ret := (fun i : nat => Code (Z.of_nat i))
                         <$> Np.searchsorted String.ltb classes_ y in
            Ok (Np.mask_assign m_nan NaN ret)
      end
  end.

(** The float arrays that callers hold; an array is named by its index. *)
Definition store : Type := list (list code).

(** [np.arange(n, dtype=object)] *)
Definition arange (n : nat) : list Z := Z.of_nat <$> seq 0 n.

Definition codes_of (y : list code) : list Z :=
  omap (fun c => match c with Code z => Some z | NaN => None end) y.

(** [if diff:] on an array: empty is false, one element is its own truth
    value, more elements raise. *)
Definition truth (diff : list Z) : result bool :=
  match diff with
  | [] => Ok false
  | [z] => Ok (negb (z =? 0)%Z)
  | _ => Raise (ValueError ("The truth value of an array with more than one "
                            ++ "element is ambiguous. Use a.any() or a.all()"))
  end.

(** [self.classes_[y]] for an integer array [y]. *)
Definition getitem (classes_ : list string) (y : list Z) : result (list string) :=
  match mapM (fun i => Py.index (length classes_) i ≫= (classes_ !!.)) y with
  | Some r => Ok r
  | None => Raise (IndexError "index out of bounds")
  end.

(** [inverse_transform(self, y)], where [y] names the caller's array. *)
Definition inverse_transform (self : NaNLabelEncoder) (y : nat)
    : M store (list string) :=
  classes_ ← lift (check_is_fitted self);
  σ ← get;
  match σ !! y with
  | None => raise (TypeError "not an array")
  | Some arr =>
      let m_nan := code_isnull <$> arr in
      let arr := Np.mask_assign m_nan (Code (Z.of_nat (length classes_) - 1)) arr in
      put (<[y := arr]> σ);;
      let diff := Np.setdiff1d Z.le
                    (codes_of (Np.mask_select (negb <$> m_nan) arr))
                    (arange (length classes_)) in
      t ← lift (truth diff);
      if t : bool then raise (ValueError_new_codes diff)
      else
        (* y = np.asarray(y, dtype=int) binds a new array *)
        let y_int := codes_of arr in
        lift (getitem classes_ y_int)
  end.

End Encoder.

(** ** [misc/missing_data_utils.py] *)

Module MissingData.
Import Py.

(** An entry of a data matrix: a real number or the missing marker
    [np.nan]. *)
Inductive float : Type :=
| Num (x : Q)
| Nan.

(** A 2-D array: [shape = (length rows, ncols)]. *)
Record matrix : Type := {
  ncols : nat;
  rows : list (list float);
}.

Definition shape0 (X : matrix) : nat := length (rows X).
Definition shape1 (X : matrix) : nat := ncols X.

(** The arrays that the program holds; an array is named by its index in
    the heap. *)
Inductive ndarray : Type :=
| Arr2 (X : matrix)
| Arr1 (v : list float).

(** The callables passed as [missing_likelihood]: they receive a column
    (NMAR) or a row (MAR) and return an array.  By their contract ("return a
    copy") they do not write into their argument, so they are functions. *)
Definition callable : Type := list float → list float.

(** A call of a [missing_likelihood] callable: its position (column or row
    number) and its argument. *)
Inductive event : Type :=
| Call (position : nat) (arg : list float).

(** The state of numpy's global generator: the seed it was last given and
    the number of values drawn since. *)
Record rng : Type := {
  seed : Z;
  drawn : nat;
}.

Record state : Type := {
  heap : list ndarray;
  np_random : rng;
  trace : list event;
}.

Definition alloc (a : ndarray) : M state nat := fun σ =>
  (Ok (length (heap σ)),
   {| heap := heap σ ++ [a]; np_random := np_random σ; trace := trace σ |}).

Definition write (l : nat) (a : ndarray) : M state unit := fun σ =>
  (Ok tt,
   {| heap := <[l := a]> (heap σ); np_random := np_random σ; trace := trace σ |}).

Definition read_matrix (l : nat) : M state matrix := fun σ =>
  match heap σ !! l with
  | Some (Arr2 X) => (Ok X, σ)
  | _ => (Raise (TypeError "not a 2-D array"), σ)
  end.

Definition read_vector (l : nat) : M state (list float) := fun σ =>
  match heap σ !! l with
  | Some (Arr1 v) => (Ok v, σ)
  | _ => (Raise (TypeError "not a 1-D array"), σ)
  end.

(** [np.random.seed(random_state)] *)
Definition np_random_seed (random_state : Z) : M state unit := fun σ =>
  (Ok tt,
   {| heap := heap σ;
      np_random := {| seed := random_state; drawn := 0 |};
      trace := trace σ |}).

(** Calling [missing_likelihood[i](arg)]. *)
Definition call (position : nat) (f : callable) (arg : list float)
    : M state (list float) := fun σ =>
  (Ok (f arg),
   {| heap := heap σ; np_random := np_random σ;
      trace := trace σ ++ [Call position arg] |}).

(** [for i in range(n): body(i)] *)
Fixpoint for_range (range : list nat) (body : nat → M state unit)
    : M state unit :=
  match range with
  | [] => mret tt
  | i :: range' => body i;; for_range range' body
  end.

(** [X[:, i]] *)
Definition column (i : nat) (X : matrix) : list float :=
  (fun r => default Nan (r !! i)) <$> rows X.

(** numpy broadcasting of a 1-D value to [n] entries. *)
Definition broadcast (n : nat) (v : list float) : result (list float) :=
  if decide (length v = n) then Ok v
  else match v with
       | [x] => Ok (replicate n x)
       | _ => Raise (ValueError "could not broadcast input array")
       end.

(** [X_ret[:, i] = col] *)
Definition set_column (l i : nat) (col : list float) : M state unit :=
  X ← read_matrix l;
  col ← lift (broadcast (shape0 X) col);
  write l (Arr2 {| ncols := ncols X;
                   rows := zip_with (fun r x => <[i := x]> r) (rows X) col |}).

(** [X_ret[i] = row] *)
Definition set_row (l i : nat) (row : list float) : M state unit :=
  X ← read_matrix l;
  row ← lift (broadcast (shape1 X) row);
  write l (Arr2 {| ncols := ncols X; rows := <[i := row]> (rows X) |}).

(** [np.full_like(X, np.nan)] *)
Definition full_like_nan (X : matrix) : matrix :=
  {| ncols := ncols X; rows := (fun _ => replicate (ncols X) Nan) <$> rows X |}.

Definition get_nmar_incomplete_data (X : nat)
    (missing_likelihood : list (option callable)) (random_state : Z)
    : M state nat :=
  np_random_seed random_state;;
  Xv ← read_matrix X;
  if decide (length missing_likelihood ≠ shape1 Xv) then
    raise (ValueError ("[get_nmar_complete_data]: the number of functions for "
                       ++ "missing data does not match the number of dimensions of the "
                       ++ "data."))
  else
    X_ret ← alloc (Arr2 Xv);
    for_range (seq 0 (shape1 Xv)) (fun i =>
      match missing_likelihood !! i with
      | Some (Some f) =>
          Xv ← read_matrix X;
          col ← call i f (column i Xv);
          set_column X_ret i col
      | _ => mret tt
      end);;
    mret X_ret.

(** [X > threshold]; a comparison with [np.nan] is false. *)
Definition gt (x : float) (threshold : Q) : bool :=
  match x with
  | Num q => negb (Qle_bool q threshold)
  | Nan => false
  end.

(** [remove_large_values(X, threshold)], without the optional mask. *)
Definition remove_large_values (threshold : Q) : callable := fun X =>
  let X_small := X in
  let m := (fun x => gt x threshold) <$> X in
  Np.mask_assign m Nan X_small.

Definition get_mar_incomplete_data (X : nat) (missing_likelihood : callable)
    (random_state : Z) : M state nat :=
  np_random_seed random_state;;
  Xv ← read_matrix X;
  X_ret ← alloc (Arr2 (full_like_nan Xv));
  for_range (seq 0 (shape0 Xv)) (fun i =>
    Xv ← read_matrix X;
    row ← call i missing_likelihood (default [] (rows Xv !! i));
    set_row X_ret i row);;
  mret X_ret.

Section external.

(** The value of the [k]-th uniform draw from [[0, 1)] after seeding numpy's
    generator with [s]. *)
Variable uniform : Z → nat → Q.

(** [StratifiedKFold(n_splits, random_state=random_state).split(X, y)] of
    scikit-learn, as the list of the [(train, test)] index arrays it yields
    for [n_samples] rows, or the exception it raises. *)
Variable stratified_kfold :
  Z → Z → nat → list float → result (list (list nat * list nat)).

(** Modelled from the spec: [misc.math_utils.mask_random_values] is not among
    the sources.  "For every cell independently, mark it missing with
    probability p, using a deterministic pseudorandom generator initialized
    from the seed"; "Output: new matrix with marked cells replaced by the
    missing marker; optionally also returns the boolean mask."  The cells
    draw in row-major order; a cell is marked when its draw is below [p]. *)
Definition random_mask (X : matrix) (likelihood : Q) (random_state : Z)
    : list (list bool) :=
  imap (fun i r =>
          imap (fun j _ =>
                  negb (Qle_bool likelihood
                          (uniform random_state (i * ncols X + j))))
               r)
       (rows X).

(** Modelled from the spec: the output of [mask_random_values], "new matrix
    with marked cells replaced by the missing marker". *)
Definition masked (mask : list (list bool)) (X : matrix) : matrix :=
  {| ncols := ncols X;
     rows := zip_with (fun m r =>
                         zip_with (fun (b : bool) x => if b then Nan else x) m r)
                      mask (rows X) |}.

(** Modelled from the spec: [mask_random_values(X, likelihood, return_mask,
    random_state)] seeds the generator, draws the mask and returns a new
    matrix, with the mask when asked for it. *)
Definition mask_random_values (X : nat) (likelihood : Q) (return_mask : bool)
    (random_state : Z) : M state (nat * option (list (list bool))) :=
  np_random_seed random_state;;
  Xv ← read_matrix X;
  let mask := random_mask Xv likelihood random_state in
  (fun σ => (Ok tt, {| heap := heap σ;
                       np_random := {| seed := random_state;
                                       drawn := shape0 Xv * shape1 Xv |};
                       trace := trace σ |}));;
  X_incomplete ← alloc (Arr2 (masked mask Xv));
  mret (X_incomplete, if return_mask then Some mask else None).

Definition get_mcar_incomplete_data (X : nat) (missing_likelihood : Q)
    (random_state : Z) : M state nat :=
  '(X_incomplete, missing_mask) ←
     mask_random_values X missing_likelihood true random_state;
  mret X_incomplete.

(** The [missing_likelihood] argument of the dispatcher: whatever the chosen
    injector takes. *)
Inductive likelihood : Type :=
| LFloat (p : Q)
| LList (fs : list (option callable))
| LCallable (f : callable).

(** The names bound at module level in [missing_data_utils.py]. *)
Definition module_globals : list string :=
  ["collections"; "np"; "sklearn"; "math_utils"; "more_itertools";
   "get_mcar_incomplete_data"; "get_nmar_incomplete_data"; "remove_large_values";
   "get_mar_incomplete_data"; "remove_y_when_z_is_large"; "get_incomplete_data";
   "_incomplete_dataset_fields"; "IncompleteDataset"; "get_incomplete_data_splits";
   "_training_results_fields"; "TrainingResults"; "train_on_incomplete_data"].

(** What a name evaluates to inside [get_incomplete_data]: a [str], or some
    other object. *)
Inductive binding : Type :=
| BStr (s : string)
| BObject.

(** Name lookup: the function's local names, then the module's. *)
Definition load_name (locals : list (string * binding)) (name : string)
    : result binding :=
  match list_find (fun b => b.1 = name) locals with
  | Some (_, (_, b)) => Ok b
  | None =>
      if bool_decide (name ∈ module_globals) then Ok BObject
      else Raise (NameError name)
  end.

Definition ascii_lower (c : ascii) : ascii :=
  let n := nat_of_ascii c in
  if decide (65 ≤ n ≤ 90) then ascii_of_nat (n + 32) else c.

(** [str.lower] *)
Fixpoint lower (s : string) : string :=
  match s with
  | EmptyString => EmptyString
  | String c s' => String (ascii_lower c) (lower s')
  end.

(** [obj.lower()] *)
Definition call_lower (obj : binding) : result string :=
  match obj with
  | BStr s => Ok (lower s)
  | BObject => Raise (TypeError "object has no attribute 'lower'")
  end.

(** A [missing_likelihood] of the wrong kind for the chosen injector makes
    that injector fail with a [TypeError]. *)
Definition get_incomplete_data (X : nat) (mechanism : string)
    (missing_likelihood : likelihood) (random_state : Z) : M state nat :=
  let locals := [("X", BObject); ("mechanism", BStr mechanism);
                 ("missing_likelihood", BObject); ("random_state", BObject)] in
  (* mechanism = mechanims.lower() *)
  mechanims ← lift (load_name locals "mechanims");
  mechanism ← lift (call_lower mechanims);
  if decide (mechanism = "mcar") then
    match missing_likelihood with
    | LFloat p => get_mcar_incomplete_data X p random_state
    | _ => raise (TypeError "missing_likelihood is not a float")
    end
  else if decide (mechanism = "mar") then
    match missing_likelihood with
    | LCallable f => get_mar_incomplete_data X f random_state
    | _ => raise (TypeError "missing_likelihood is not callable")
    end
  else if decide (mechanism = "nmar") then
    match missing_likelihood with
    | LList fs => get_nmar_incomplete_data X fs random_state
    | _ => raise (TypeError "missing_likelihood has no len()")
    end
  else
    let valid_mechanisms := ["mcar"; "mar"; "nmar"] in
    let valid_mechanisms := String.concat " " valid_mechanisms in
    raise (ValueError ("[get_incomplete_data]: unknown missing data mechansim: "
                       ++ mechanism ++ ". Must be one of: " ++ valid_mechanisms)).

Record IncompleteDataset : Type := {
  X_train_complete : nat;
  X_train_incomplete : nat;
  X_test_complete : nat;
  X_test_incomplete : nat;
  y_train : nat;
  y_test : nat;
}.

(** [a[idx]] for an integer index array: a new array with the selected
    entries, in the order of [idx]. *)
Definition take {A} (idx : list nat) (a : list A) : result (list A) :=
  match mapM (a !!.) idx with
  | Some r => Ok r
  | None => Raise (IndexError "index out of bounds")
  end.

(** [X[idx]] on a 2-D array selects rows. *)
Definition take_rows (idx : list nat) (X : matrix) : result matrix :=
  match take idx (rows X) with
  | Ok r => Ok {| ncols := ncols X; rows := r |}
  | Raise e => Raise e
  end.

(** [more_itertools.nth(iterable, n)], with its default [None]. *)
Definition nth {A} (iterable : list A) (n : Z) : result (option A) :=
  if decide (n < 0)%Z then
    Raise (ValueError "Indices for islice() must be None or an integer")
  else Ok (iterable !! Z.to_nat n).

Definition get_incomplete_data_splits (X_complete X_incomplete y : nat)
    (fold num_folds random_state : Z) : M state IncompleteDataset :=
  Xc ← read_matrix X_complete;
  yv ← read_vector y;
  splits ← lift (stratified_kfold num_folds random_state (shape0 Xc) yv);
  fold_split ← lift (nth splits fold);
  match fold_split with
  | None => raise (TypeError "cannot unpack non-iterable NoneType object")
  | Some (train, test) =>
      X_train_complete ← (r ← lift (take_rows train Xc); alloc (Arr2 r));
      y_train ← (r ← lift (take train yv); alloc (Arr1 r));
      X_test_complete ← (r ← lift (take_rows test Xc); alloc (Arr2 r));
      y_test ← (r ← lift (take test yv); alloc (Arr1 r));
      Xi ← read_matrix X_incomplete;
      X_train_incomplete ← (r ← lift (take_rows train Xi); alloc (Arr2 r));
      X_test_incomplete ← (r ← lift (take_rows test Xi); alloc (Arr2 r));
      mret {| X_train_complete := X_train_complete;
              X_train_incomplete := X_train_incomplete;
              X_test_complete := X_test_complete;
              X_test_incomplete := X_test_incomplete;
              y_train := y_train;
              y_test := y_test |}
  end.

End external.

End MissingData.

(** ** Closed forms used to state the encoder's properties *)

Module EncoderSpec.
Import Encoder.

(** The code that [transform] gives an entry when the class list is
    ascending. *)
Definition encode (cs : list string) (v : label) : code :=
  match v with
  | None => NaN
  | Some s => Code (Z.of_nat (Np.rank String.ltb cs s))
  end.

(** The caller's array after [y[m_nan] = len(self.classes_)-1]. *)
Definition fill_nan (cs : list string) (arr : list code) : list code :=
  Np.mask_assign (code_isnull <$> arr) (Code (Z.of_nat (length cs) - 1)) arr.

End EncoderSpec.

(** ** Predicates used to state the properties of the injectors *)

Module MissingDataSpec.
Import Py MissingData.

(** A triple for a statement [m]: from a state in [P], it ends in [Q] when it
    returns and in [E] when it raises. *)
Definition hoare {A} (P : state → Prop) (m : M state A)
    (Q : A → state → Prop) (E : state → Prop) : Prop :=
  ∀ σ, P σ →
    match m σ with
    | (Ok a, σ') => Q a σ'
    | (Raise _, σ') => E σ'
    end.

(** Every array of the heap [h] is still there, with its contents. *)
Definition kept (h : list ndarray) (σ : state) : Prop :=
  h `prefix_of` heap σ.

(** [l] names an array of [σ] that did not exist in the heap [h]. *)
Definition new_in (h : list ndarray) (l : nat) (σ : state) : Prop :=
  length h ≤ l < length (heap σ).

(** The outcome [out] of a call made in state [σ] left every array of [σ] as
    it was, and the arrays it returns (listed by [locs]) are new and
    distinct. *)
Definition copies {A} (σ : state) (out : result A * state)
    (locs : A → list nat) : Prop :=
  kept (heap σ) out.2 ∧
  match out.1 with
  | Ok a => Forall (fun l => new_in (heap σ) l out.2) (locs a) ∧ NoDup (locs a)
  | Raise _ => True
  end.

(** Statements that leave the heap as it is. *)
Definition heap_neutral {A} (m : M state A) : Prop :=
  ∀ σ, heap (m σ).2 = heap σ.

(** The invariant of the injectors' loops: the caller's heap [h] is kept,
    and [l] is the array allocated for the result. *)
Definition result_only (h : list ndarray) (l : nat) (σ : state) : Prop :=
  kept h σ ∧ new_in h l σ.

(** The arrays of an [IncompleteDataset]. *)
Definition dataset_arrays (d : IncompleteDataset) : list nat :=
  [X_train_complete d; X_train_incomplete d; X_test_complete d;
   X_test_incomplete d; y_train d; y_test d].

(** The rows of [X] at the positions [idx], in the order of [idx]. *)
Definition rows_at (idx : list nat) (X : matrix) : list (option (list float)) :=
  (fun i => rows X !! i) <$> idx.

End MissingDataSpec.

(** ** Concrete data on which the properties are exercised *)

Module Examples.
Import Py MissingData.

(** A small congruential generator standing in for numpy's. *)
Definition lcg_uniform (s : Z) (k : nat) : Q :=
  (((s + 7919 * Z.of_nat k) * 1103515245 + 12345) mod 1000)%Z # 1000.

(** The matrix with [n] rows and [m] columns whose cell [(i, j)] holds
    [i * m + j]. *)
Definition counting_matrix (n m : nat) : matrix :=
  {| ncols := m;
     rows := (fun i => (fun j => Num (inject_Z (Z.of_nat (i * m + j))))
                         <$> seq 0 m) <$> seq 0 n |}.

(** A plain k-fold that deals the rows out in turn, standing in for
    scikit-learn's. *)
Definition dealt_kfold (n_splits random_state : Z) (n_samples : nat)
    (y : list float) : result (list (list nat * list nat)) :=
  if decide (n_splits < 2)%Z then
    Raise (ValueError "k-fold cross-validation requires at least one train/test split")
  else
    let k := Z.to_nat n_splits in
    Ok ((fun f =>
           (filter (fun i => i mod k ≠ f) (seq 0 n_samples),
            filter (fun i => i mod k = f) (seq 0 n_samples)))
          <$> seq 0 k).

Definition initial (h : list ndarray) (s : Z) : state :=
  {| heap := h; np_random := {| seed := s; drawn := 0 |}; trace := [] |}.

End Examples.

(** ** Closed forms of [transform] and [inverse_transform] *)

Module EncoderForms.
Import Encoder.

(** The mask [m_nan] of [transform]: the null entries and, with
    [treat_unknown_as_missing], the entries that [np.isin] does not find in
    [classes_]. *)
Definition missing_mask (treat_unknown : bool) (cs : list string)
    (y : list label) : list bool :=
  (fun v => isnull v || (treat_unknown && negb (bool_decide (v ∈ Some <$> cs))))
    <$> y.

(** The array [y] of [transform] after [y[m_nan] = marker]. *)
Definition filled (marker : string) (treat_unknown : bool) (cs : list string)
    (y : list label) : list string :=
  (fun v => if isnull v || (treat_unknown && negb (bool_decide (v ∈ Some <$> cs)))
            then marker else default marker v) <$> y.

(** What [inverse_transform] returns for one code. *)
Definition decode (cs : list string) (marker : string) (c : code) : string :=
  match c with
  | NaN => marker
  | Code z => default marker (cs !! Z.to_nat z)
  end.

(** A code of the valid range [0 .. n-1]. *)
Definition in_range (n : nat) (z : Z) : Prop := (0 ≤ z < Z.of_nat n)%Z.

#[global] Instance in_range_dec (n : nat) (z : Z) : Decision (in_range n z).
Proof. unfold in_range. apply _. Defined.

End EncoderForms.

(** ** [remove_y_when_z_is_large] *)

Module RowMechanism.
Import Py MissingData.

(** The parameter [z]: "int or iterable of ints". *)
Inductive positions : Type :=
| Position (i : Z)
| Positions (l : list Z).

(** What [x[z]] evaluates to: an entry of [x] for an int, a new array for a
    list of ints. *)
Inductive selection : Type :=
| Entry (v : float)
| Entries (v : list float).

(** [x[i]] for an int [i]; a negative [i] counts from the end. *)
Definition entry (x : list float) (i : Z) : option float :=
  Py.index (length x) i ≫= (x !!.).

(** [x[z]] *)
Definition select (x : list float) (z : positions) : result selection :=
  match z with
  | Position i =>
      match entry x i with
      | Some v => Ok (Entry v)
      | None => Raise (IndexError "index is out of bounds")
      end
  | Positions l =>
      match mapM (entry x) l with
      | Some v => Ok (Entries v)
      | None => Raise (IndexError "index is out of bounds")
      end
  end.

(** [x[y] = v] for an int [y], on the array [x]. *)
Definition set_entry (x : list float) (y : Z) (v : float) : result (list float) :=
  match Py.index (length x) y with
  | Some k => Ok (<[k := v]> x)
  | None => Raise (IndexError "index is out of bounds")
  end.

(** [combination_operator] is any callable from [x[z]] to a float;
    [np.product], the default, is one such. *)
Definition remove_y_when_z_is_large (x : list float) (y : Z) (z : positions)
    (threshold : Q) (combination_operator : selection → float)
    : result (list float) :=
  match select x z with
  | Raise e => Raise e
  | Ok xz =>
      let val := combination_operator xz in
      let x_missing := x in
      if gt val threshold then set_entry x_missing y Nan
      else Ok x_missing
  end.

End RowMechanism.

(** ** Closed forms of the injectors' loops *)

Module InjectorForms.
Import Py MissingData.

Definition well_formed (X : matrix) : Prop :=
  Forall (fun r => length r = ncols X) (rows X).

#[global] Instance well_formed_dec (X : matrix) : Decision (well_formed X).
Proof. unfold well_formed. apply _. Defined.

Definition returns_columns (X : matrix) (fs : list (option callable)) : Prop :=
  ∀ i f, fs !! i = Some (Some f) → length (f (column i X)) = shape0 X.

Definition nmar_column (X : matrix) (fs : list (option callable)) (i : nat)
    : list float :=
  match fs !! i with
  | Some (Some f) => f (column i X)
  | _ => column i X
  end.

Definition nmar_calls (X : matrix) (fs : list (option callable)) (k : nat)
    : list event :=
  mjoin ((fun i => match fs !! i with
                   | Some (Some _) => [Call i (column i X)]
                   | _ => []
                   end) <$> seq 0 k).

Definition nmar_cell (X : matrix) (fs : list (option callable)) (r j : nat)
    (x : float) : float :=
  match fs !! j with
  | Some (Some f) => default Nan (f (column j X) !! r)
  | _ => x
  end.

Definition nmar_rows (X : matrix) (fs : list (option callable)) (k : nat)
    : list (list float) :=
  imap (fun r row =>
          imap (fun j x => if decide (j < k) then nmar_cell X fs r j x else x) row)
       (rows X).

Definition nmar_body (X X_ret : nat) (fs : list (option callable)) (i : nat)
    : M state unit :=
  match fs !! i with
  | Some (Some f) =>
      Xv ← read_matrix X;
      col ← call i f (column i Xv);
      set_column X_ret i col
  | _ => mret tt
  end.


Definition returns_rows (X : matrix) (f : callable) : Prop :=
  Forall (fun r => length (f r) = shape1 X) (rows X).

Definition mar_rows (X : matrix) (f : callable) (k : nat) : list (list float) :=
  imap (fun r row => if decide (r < k) then f row else replicate (ncols X) Nan)
       (rows X).

Definition mar_body (X X_ret : nat) (f : callable) (i : nat) : M state unit :=
  Xv ← read_matrix X;
  row ← call i f (default [] (rows Xv !! i));
  set_row X_ret i row.



(** What [remove_large_values] does to one entry. *)
Definition clip (threshold : Q) (x : float) : float :=
  if gt x threshold then Nan else x.

(** What [remove_y_when_z_is_large] does to a row [r], giving [r']. *)
Definition row_removed (y : Z) (z : RowMechanism.positions) (threshold : Q)
    (op : RowMechanism.selection → float) (r r' : list float) : Prop :=
  ∃ xz, RowMechanism.select r z = Ok xz ∧
    if gt (op xz) threshold
    then ∃ k, Py.index (length r) y = Some k ∧ r' = <[k := Nan]> r
    else r' = r.

End InjectorForms.

(** ** More concrete data *)

Module RowExamples.
Import Py MissingData RowMechanism.

(** A combination operator that compares only: the selected entry itself,
    or the first of the selected entries. *)
Definition first_selected (xz : selection) : float :=
  match xz with
  | Entry v => v
  | Entries (v :: _) => v
  | Entries [] => Nan
  end.

(** The callable [functools.partial(remove_y_when_z_is_large, y=y, z=z,
    threshold=threshold, combination_operator=op)] on the rows for which it
    returns. *)
Definition partial_remove_y (y : Z) (z : positions) (threshold : Q)
    (op : selection → float) : callable := fun x =>
  match remove_y_when_z_is_large x y z threshold op with
  | Ok r => r
  | Raise _ => x
  end.

End RowExamples.

(** * Part II: properties *)

(** ** The order on [str] *)

Module StrOrdFacts.

Lemma ascii_compare_refl (c : ascii) : Ascii.compare c c = Eq.
Proof. unfold Ascii.compare. apply N.compare_refl. Qed.

Lemma ascii_compare_trans (a b c : ascii) :
  Ascii.compare a b = Lt -> Ascii.compare b c = Lt -> Ascii.compare a c = Lt.
Proof.
  unfold Ascii.compare. rewrite !N.compare_lt_iff. apply N.lt_trans.
Qed.

Lemma compare_refl (s : string) : String.compare s s = Eq.
Proof.
  induction s as [|c s IH]; simpl; [reflexivity|].
  now rewrite ascii_compare_refl.
Qed.

Lemma compare_trans (s1 s2 s3 : string) :
  String.compare s1 s2 = Lt -> String.compare s2 s3 = Lt ->
  String.compare s1 s3 = Lt.
Proof.
  revert s2 s3.
  induction s1 as [|a s1 IH]; intros [|b s2] [|c s3]; simpl; try congruence.
  destruct (Ascii.compare a b) eqn:Hab; try discriminate.
  - apply Ascii.compare_eq_iff in Hab. subst b.
    destruct (Ascii.compare a c) eqn:Hac; try congruence.
    apply IH.
  - intros _.
    destruct (Ascii.compare b c) eqn:Hbc; try discriminate.
    + apply Ascii.compare_eq_iff in Hbc. subst c. now rewrite Hab.
    + intros _. now rewrite (ascii_compare_trans a b c).
Qed.

Lemma ltb_irrefl (s : string) : String.ltb s s = false.
Proof. unfold String.ltb. now rewrite compare_refl. Qed.

Lemma ltb_trans (a b c : string) :
  String.ltb a b = true -> String.ltb b c = true -> String.ltb a c = true.
Proof.
  unfold String.ltb. intros Hab Hbc.
  destruct (String.compare a b) eqn:E1; try discriminate.
  destruct (String.compare b c) eqn:E2; try discriminate.
  now rewrite (compare_trans a b c).
Qed.

Lemma ltb_antisym (a b : string) :
  String.ltb a b = true -> String.ltb b a = false.
Proof.
  unfold String.ltb. rewrite (String.compare_antisym b a).
  destruct (String.compare a b); simpl; congruence.
Qed.

(** Trichotomy. *)
Lemma ltb_total (a b : string) :
  String.ltb a b = true \/ a = b \/ String.ltb b a = true.
Proof.
  unfold String.ltb. rewrite (String.compare_antisym b a).
  destruct (String.compare a b) eqn:E; simpl; auto.
  right; left. now apply String.compare_eq_iff.
Qed.

(** The non-strict order is stdpp's [String.le]; its strict part is [ltb]. *)
Lemma le_ne_ltb (a b : string) :
  String.le a b ∧ a ≠ b ↔ String.ltb a b = true.
Proof.
  unfold String.le, String.leb, String.ltb.
  destruct (String.compare a b) eqn:E; simpl; split; try done.
  - intros [_ Hne]. destruct Hne. by apply String.compare_eq_iff.
  - intros _. split; [done|]. intros ->.
    rewrite compare_refl in E. done.
  - by intros [[] _].
Qed.

End StrOrdFacts.

(** ** The numpy primitives *)

Module NpFacts.
Import Np.

Section unique.
Context {A : Type} (R : relation A).
Context `{!∀ x y, Decision (R x y)} `{!EqDecision A}.

Lemma elem_of_mask_repeats (prev : A) (l : list A) x :
  x ∈ prev :: mask_repeats prev l ↔ x ∈ prev :: l.
Proof.
  revert prev. induction l as [|y l IH]; intros prev; simpl; [done|].
  destruct (decide (y = prev)) as [->|Hne].
  - rewrite IH, !elem_of_cons. tauto.
  - rewrite !elem_of_cons, <-!(elem_of_cons _ x y), IH. done.
Qed.

Lemma elem_of_drop_repeats (l : list A) x : x ∈ drop_repeats l ↔ x ∈ l.
Proof. destruct l; simpl; [done|]. apply elem_of_mask_repeats. Qed.

Lemma elem_of_unique (l : list A) x : x ∈ unique R l ↔ x ∈ l.
Proof.
  unfold unique. rewrite elem_of_drop_repeats.
  by rewrite (merge_sort_Permutation R l).
Qed.

Context `{!Transitive R} `{!Total R} `{!AntiSymm (=) R}.

Lemma mask_repeats_sorted (prev : A) (l : list A) :
  StronglySorted R (prev :: l) →
  StronglySorted (strict R) (prev :: mask_repeats prev l).
Proof.
  revert prev. induction l as [|y l IH]; intros prev Hs; simpl.
  { repeat constructor. }
  apply StronglySorted_cons in Hs as [Hall Hs].
  apply Forall_cons in Hall as [Hpy Hall].
  destruct (decide (y = prev)) as [->|Hne].
  - apply IH, Hs.
  - apply StronglySorted_cons. split; [|by apply IH].
    apply Forall_forall. intros z Hz.
    apply (proj1 (elem_of_mask_repeats y l z)) in Hz.
    assert (R y z) as Hyz.
    { apply elem_of_cons in Hz as [->|Hz]; [by destruct (total R y y)|].
      apply StronglySorted_cons in Hs as [Hs _].
      rewrite Forall_forall in Hs. by apply Hs. }
    split; [by etrans|].
    intros ->. apply Hne. by apply (anti_symm R).
Qed.

Lemma unique_sorted (l : list A) : StronglySorted (strict R) (unique R l).
Proof.
  unfold unique.
  pose proof (StronglySorted_merge_sort R l) as Hs.
  destruct (merge_sort R l) as [|x l']; simpl; [constructor|].
  by apply mask_repeats_sorted.
Qed.

Lemma strict_sorted_NoDup (l : list A) :
  StronglySorted (strict R) l → NoDup l.
Proof.
  induction 1 as [|x l Hs IH Hall]; constructor; [|done].
  intros Hx. eapply Forall_forall in Hall; [|done]. by destruct Hall.
Qed.

Lemma unique_NoDup (l : list A) : NoDup (unique R l).
Proof. apply strict_sorted_NoDup, unique_sorted. Qed.

Lemma filter_all (P : A → Prop) `{!∀ x, Decision (P x)} (l : list A) :
  Forall P l → filter P l = l.
Proof.
  induction 1 as [|x l Hx _ IH]; [done|].
  by rewrite filter_cons_True, IH.
Qed.

Lemma filter_none (P : A → Prop) `{!∀ x, Decision (P x)} (l : list A) :
  Forall (fun x => ¬ P x) l → filter P l = [].
Proof.
  induction 1 as [|x l Hx _ IH]; [done|].
  by rewrite filter_cons_False.
Qed.

Lemma strict_sorted_sorted (l : list A) :
  StronglySorted (strict R) l → StronglySorted R l.
Proof.
  induction 1 as [|x l _ IH Hall]; constructor; [done|].
  eapply Forall_impl; [exact Hall|]. by intros y [? _].
Qed.

Lemma mask_repeats_strict (prev : A) (l : list A) :
  StronglySorted (strict R) (prev :: l) → mask_repeats prev l = l.
Proof.
  revert prev. induction l as [|y l IH]; intros prev Hs; [done|].
  apply StronglySorted_cons in Hs as [Hall Hs].
  apply Forall_cons in Hall as [[_ Hne] _].
  simpl. rewrite decide_False by done. f_equal. by apply IH.
Qed.

(** [np.unique] leaves an ascending array without repeats as it is. *)
Lemma unique_strict_id (l : list A) :
  StronglySorted (strict R) l → unique R l = l.
Proof.
  intros Hs. unfold unique.
  assert (merge_sort R l = l) as ->.
  { apply (StronglySorted_unique R).
    - apply StronglySorted_merge_sort; apply _.
    - by apply strict_sorted_sorted.
    - apply merge_sort_Permutation. }
  destruct l as [|x l]; [done|]. simpl. f_equal.
  by apply mask_repeats_strict.
Qed.

Lemma unique_unique (l : list A) : unique R (unique R l) = unique R l.
Proof. apply unique_strict_id, unique_sorted. Qed.

Lemma intersect1d_subseteq (a b : list A) :
  (∀ x, x ∈ a → x ∈ b) → intersect1d R a b = unique R a.
Proof.
  intros Hab. unfold intersect1d. apply filter_all, Forall_forall.
  intros x. rewrite !elem_of_unique. apply Hab.
Qed.

Lemma setdiff1d_subseteq (a b : list A) :
  (∀ x, x ∈ a → x ∈ b) → setdiff1d R a b = [].
Proof.
  intros Hab. unfold setdiff1d. apply filter_none, Forall_forall.
  intros x Hx Hnx. apply Hnx. revert Hx. rewrite !elem_of_unique. apply Hab.
Qed.

End unique.

Section searchsorted.
Context {A : Type} (ltb : A → A → bool).

Lemma bisect_S fuel arr key lo hi :
  bisect ltb (S fuel) arr key lo hi =
    if decide (lo < hi) then
      match arr !! (lo + (hi - lo) / 2) with
      | Some mid_val =>
          if ltb mid_val key
          then bisect ltb fuel arr key (lo + (hi - lo) / 2 + 1) hi
          else bisect ltb fuel arr key lo (lo + (hi - lo) / 2)
      | None => (lo, hi)
      end
    else (lo, hi).
Proof. reflexivity. Qed.

Lemma bisect_exit fuel arr key lo hi :
  hi ≤ length arr → hi - lo ≤ fuel →
  snd (bisect ltb fuel arr key lo hi) ≤ fst (bisect ltb fuel arr key lo hi).
Proof.
  revert lo hi. induction fuel as [|fuel IH]; intros lo hi Hlen Hfuel.
  { simpl. lia. }
  rewrite bisect_S.
  destruct (decide (lo < hi)) as [Hlt|Hge]; [|simpl; lia].
  assert (lo + (hi - lo) / 2 < hi) as Hmid.
  { pose proof (Nat.div_lt (hi - lo) 2). lia. }
  destruct (arr !! (lo + (hi - lo) / 2)) as [mid_val|] eqn:Hlk.
  - destruct (ltb mid_val key); apply IH; lia.
  - apply lookup_ge_None in Hlk. lia.
Qed.

(** More turns than [max_idx - min_idx] change nothing. *)
Lemma bisect_fuel fuel1 fuel2 arr key lo hi :
  hi - lo ≤ fuel1 → hi - lo ≤ fuel2 →
  bisect ltb fuel1 arr key lo hi = bisect ltb fuel2 arr key lo hi.
Proof.
  revert fuel2 lo hi.
  induction fuel1 as [|fuel1 IH]; intros [|fuel2] lo hi H1 H2.
  - done.
  - rewrite bisect_S, decide_False by lia. done.
  - rewrite bisect_S, decide_False by lia. done.
  - rewrite !bisect_S.
    destruct (decide (lo < hi)) as [Hlt|Hge]; [|done].
    assert (lo + (hi - lo) / 2 < hi) as Hmid.
    { pose proof (Nat.div_lt (hi - lo) 2). lia. }
    destruct (arr !! (lo + (hi - lo) / 2)) as [mid_val|]; [|done].
    destruct (ltb mid_val key); apply IH; lia.
Qed.

Lemma rank_le_length arr key : rank ltb arr key ≤ length arr.
Proof. unfold rank. apply length_filter. Qed.

Lemma rank_cons x arr key :
  rank ltb (x :: arr) key = (if ltb x key then 1 else 0) + rank ltb arr key.
Proof.
  unfold rank. rewrite filter_cons.
  destruct (ltb x key) eqn:E; case_decide; simpl; congruence.
Qed.

Hypothesis ltb_irrefl : ∀ x, ltb x x = false.
Hypothesis ltb_trans : ∀ x y z, ltb x y = true → ltb y z = true → ltb x z = true.
Hypothesis ltb_total : ∀ x y, ltb x y = true ∨ x = y ∨ ltb y x = true.

Local Abbreviation lt := (fun x y : A => ltb x y = true).

Lemma rank_zero arr key :
  Forall (fun x => ltb x key = false) arr → rank ltb arr key = 0.
Proof.
  induction 1 as [|x arr Hx _ IH]; [done|].
  by rewrite rank_cons, Hx, IH.
Qed.

Lemma rank_mono arr k1 k2 : ltb k2 k1 = false → rank ltb arr k1 ≤ rank ltb arr k2.
Proof.
  intros Hk. induction arr as [|x arr IH]; [done|].
  rewrite !rank_cons.
  destruct (ltb x k1) eqn:E1; [|lia].
  assert (ltb x k2 = true) as ->; [|lia].
  destruct (ltb_total k1 k2) as [H|[->|H]]; [eauto|done|congruence].
Qed.

(** In an ascending array the entries below [key] are exactly the first
    [rank ltb arr key] ones. *)
Lemma sorted_lookup_rank arr key i x :
  StronglySorted lt arr → arr !! i = Some x →
  (ltb x key = true ↔ i < rank ltb arr key).
Proof.
  intros Hs. revert i. induction Hs as [|a l Hs IH Hall]; intros i Hi; [done|].
  rewrite rank_cons. destruct (ltb a key) eqn:Ea.
  - destruct i as [|i]; simpl in Hi.
    + injection Hi as ->. split; [lia|done].
    + rewrite (IH _ Hi). lia.
  - assert (rank ltb l key = 0) as ->.
    { apply rank_zero. eapply Forall_impl; [exact Hall|].
      intros y Hay. destruct (ltb y key) eqn:Ey; [|done].
      pose proof (ltb_trans _ _ _ Hay Ey). congruence. }
    destruct i as [|i]; simpl in Hi.
    + injection Hi as ->. rewrite Ea. split; [done|lia].
    + apply list_elem_of_lookup_2 in Hi.
      rewrite Forall_forall in Hall. specialize (Hall _ Hi).
      split; [|lia]. intros Hx.
      pose proof (ltb_trans _ _ _ Hall Hx). congruence.
Qed.

Lemma bisect_sorted fuel arr key lo hi :
  StronglySorted lt arr →
  lo ≤ rank ltb arr key → rank ltb arr key ≤ hi → hi ≤ length arr →
  hi - lo ≤ fuel →
  bisect ltb fuel arr key lo hi = (rank ltb arr key, rank ltb arr key).
Proof.
  intros Hs. revert lo hi.
  induction fuel as [|fuel IH]; intros lo hi Hlo Hhi Hlen Hfuel.
  { simpl. f_equal; lia. }
  rewrite bisect_S.
  destruct (decide (lo < hi)) as [Hlt|Hge]; [|f_equal; lia].
  assert (lo + (hi - lo) / 2 < hi) as Hmid.
  { pose proof (Nat.div_lt (hi - lo) 2). lia. }
  destruct (arr !! (lo + (hi - lo) / 2)) as [mid_val|] eqn:Hlk.
  - pose proof (sorted_lookup_rank arr key _ _ Hs Hlk) as Hrk.
    destruct (ltb mid_val key).
    + assert (lo + (hi - lo) / 2 < rank ltb arr key) by (by apply Hrk).
      apply IH; lia.
    + assert (¬ lo + (hi - lo) / 2 < rank ltb arr key).
      { intros H. apply Hrk in H. done. }
      apply IH; lia.
  - apply lookup_ge_None in Hlk. lia.
Qed.

Lemma binsearch_sorted arr last_key lo hi keys :
  StronglySorted lt arr →
  (∀ k, ltb last_key k = true → lo ≤ rank ltb arr k) →
  (∀ k, ltb last_key k = false →
        rank ltb arr k ≤ if decide (hi < length arr) then hi + 1 else length arr) →
  binsearch ltb arr last_key lo hi keys = map (rank ltb arr) keys.
Proof.
  intros Hs. revert last_key lo hi.
  induction keys as [|key keys IH]; intros last_key lo hi Hlo Hhi; [done|].
  simpl.
  assert (∀ lo1 hi1, lo1 ≤ rank ltb arr key → rank ltb arr key ≤ hi1 →
            hi1 ≤ length arr →
            (let '(lo', hi') := bisect ltb (hi1 - lo1) arr key lo1 hi1 in
             lo' :: binsearch ltb arr key lo' hi' keys)
            = rank ltb arr key :: map (rank ltb arr) keys) as Hstep.
  { intros lo1 hi1 H1 H2 H3.
    rewrite bisect_sorted by (done || lia). f_equal. apply IH.
    - intros k Hk. apply rank_mono.
      destruct (ltb k key) eqn:E; [|done].
      pose proof (ltb_trans _ _ _ Hk E) as Hkk.
      rewrite ltb_irrefl in Hkk. done.
    - intros k Hk. pose proof (rank_mono arr k key Hk).
      pose proof (rank_le_length arr k).
      destruct (decide (rank ltb arr key < length arr)); lia. }
  destruct (ltb last_key key) eqn:E.
  - apply Hstep; [by apply Hlo|apply rank_le_length|done].
  - specialize (Hhi key E).
    apply Hstep; [lia|done|].
    destruct (decide (hi < length arr)); lia.
Qed.

(** On an ascending array [np.searchsorted] returns the insertion point. *)
Lemma searchsorted_sorted arr keys :
  StronglySorted lt arr → searchsorted ltb arr keys = map (rank ltb arr) keys.
Proof.
  intros Hs. destruct keys as [|key0 keys]; [done|].
  unfold searchsorted. apply binsearch_sorted; [done|lia|].
  intros k _. pose proof (rank_le_length arr k).
  destruct (decide (length arr < length arr)); lia.
Qed.

Lemma sorted_lookup_lt arr i j x y :
  StronglySorted lt arr → arr !! i = Some x → arr !! j = Some y →
  i < j → ltb x y = true.
Proof.
  intros Hs. revert i j. induction Hs as [|a l Hs IH Hall]; intros i j Hi Hj Hij.
  { done. }
  destruct j as [|j]; [lia|]. simpl in Hj.
  destruct i as [|i]; simpl in Hi.
  - injection Hi as ->. rewrite Forall_forall in Hall.
    apply Hall. by eapply list_elem_of_lookup_2.
  - eapply IH; [done..|lia].
Qed.

(** A value stored in an ascending array is found at its own index. *)
Lemma rank_lookup arr i x :
  StronglySorted lt arr → arr !! i = Some x → rank ltb arr x = i.
Proof.
  intros Hs Hi.
  pose proof (sorted_lookup_rank arr x i x Hs Hi) as Hself.
  rewrite ltb_irrefl in Hself.
  assert (rank ltb arr x ≤ i) as Hle.
  { destruct (decide (i < rank ltb arr x)) as [H|H]; [|lia].
    apply Hself in H. done. }
  destruct i as [|i]; [lia|].
  destruct (arr !! i) as [y|] eqn:Hy.
  - pose proof (sorted_lookup_lt arr i (S i) y x Hs Hy Hi) as Hyx.
    apply (sorted_lookup_rank arr x i y Hs Hy) in Hyx; lia.
  - apply lookup_ge_None in Hy. apply lookup_lt_Some in Hi. lia.
Qed.

End searchsorted.

Section masks.
Context {A : Type}.

Lemma length_mask_assign (mask : list bool) (v : A) (a : list A) :
  length mask = length a → length (mask_assign mask v a) = length a.
Proof. intros H. unfold mask_assign. rewrite length_zip_with. lia. Qed.

Lemma lookup_mask_assign (mask : list bool) v (a : list A) i (m : bool) x :
  mask !! i = Some m → a !! i = Some x →
  mask_assign mask v a !! i = Some (if m then v else x).
Proof.
  intros Hm Hx. unfold mask_assign. rewrite lookup_zip_with, Hm. simpl.
  by rewrite Hx.
Qed.

Lemma elem_of_mask_select mask (a : list A) x :
  x ∈ mask_select mask a → x ∈ a.
Proof.
  revert a. induction mask as [|m mask IH]; intros [|y a]; simpl;
    try (by intros ?%elem_of_nil).
  destruct m; rewrite ?elem_of_cons; [intros [->|H]|intros H]; auto.
Qed.
End masks.

End NpFacts.

(** ** The label encoder *)

Module EncoderFacts.
Import Py Np NpFacts Encoder EncoderSpec.

Lemma strict_sorted_lt (l : list string) :
  StronglySorted (strict String.le) l ↔ StronglySorted StrOrd.lt l.
Proof.
  split; induction 1 as [|x l _ IH Hall]; constructor; try done;
    (eapply Forall_impl; [exact Hall|]); intros y Hy;
    by apply StrOrdFacts.le_ne_ltb.
Qed.

Lemma unique_str_sorted (l : list string) :
  StronglySorted StrOrd.lt (unique_str l).
Proof. apply strict_sorted_lt, unique_sorted; apply _. Qed.

Lemma elem_of_unique_str (l : list string) (s : string) :
  s ∈ unique_str l ↔ s ∈ l.
Proof. apply elem_of_unique. Qed.

Lemma unique_str_NoDup (l : list string) : NoDup (unique_str l).
Proof. apply unique_NoDup; apply _. Qed.

(** The observed labels: the [str] entries of [y]. *)
Lemma elem_of_observed (y : list label) (s : string) :
  s ∈ strings_of (mask_select (negb <$> (isnull <$> y)) y) ↔ Some s ∈ y.
Proof.
  induction y as [|[t|] y IH]; simpl.
  - unfold strings_of. simpl. rewrite !elem_of_nil. done.
  - unfold strings_of in *. simpl. rewrite !elem_of_cons, IH.
    split; intros [H|H]; auto; left; congruence.
  - rewrite IH, elem_of_cons. split; [auto|]. by intros [?|?].
Qed.

(** What [fit] leaves in the encoder. *)
Lemma fit_Ok (self self' : NaNLabelEncoder) (y : list label) :
  fit self y = Ok self' →
  ∃ marker cls,
    missing_value_marker self = Some marker ∧
    (Some marker ∉ y) ∧
    self' = {| missing_value_marker := Some marker;
               labels := Some cls;
               treat_unknown_as_missing := treat_unknown_as_missing self;
               classes_ := Some (cls ++ [marker]) |} ∧
    StronglySorted StrOrd.lt cls ∧
    (∀ s, s ∈ cls ↔ Some s ∈ y ∨ s ∈ default [] (labels self)).
Proof.
  unfold fit. destruct (missing_value_marker self) as [marker|]; [|done].
  case_bool_decide as Hin; [done|]. intros [= <-].
  eexists marker, _. split_and!; [done|done|reflexivity|..].
  - destruct (labels self); apply unique_str_sorted.
  - intros s. destruct (labels self) as [ls|]; simpl.
    + rewrite elem_of_unique_str, elem_of_app, elem_of_unique_str.
      by rewrite elem_of_observed.
    + rewrite elem_of_unique_str, elem_of_observed, elem_of_nil. tauto.
Qed.

(** [fit] succeeds unless the marker is null or occurs in the data. *)
Lemma fit_total (self : NaNLabelEncoder) (y : list label) (marker : string) :
  missing_value_marker self = Some marker → Some marker ∉ y →
  ∃ self', fit self y = Ok self'.
Proof.
  intros Hm Hy. unfold fit. rewrite Hm.
  rewrite bool_decide_eq_false_2 by done. eauto.
Qed.

Lemma known_mask (cs : list string) (L : list label) :
  Forall (fun v => ∀ s, v = Some s → s ∈ cs) L →
  zip_with orb (isnull <$> L) (negb <$> isin L (Some <$> cs)) = isnull <$> L.
Proof.
  induction 1 as [|[s|] L Hv _ IH]; simpl; [done|..]; f_equal; try done.
  rewrite bool_decide_eq_true_2; [done|].
  apply list_elem_of_fmap_2. by apply Hv.
Qed.

Lemma fill_marker (marker : string) (L : list label) :
  mapM id (mask_assign (isnull <$> L) (Some marker) L)
  = Some (default marker <$> L).
Proof.
  apply mapM_Some. unfold mask_assign.
  induction L as [|[s|] L IH]; csimpl; constructor; done.
Qed.

Lemma encode_mask (cs : list string) (marker : string) (L : list label) :
  mask_assign (isnull <$> L) NaN
    ((fun i : nat => Code (Z.of_nat i))
       <$> (rank String.ltb cs <$> (default marker <$> L)))
  = encode cs <$> L.
Proof.
  unfold mask_assign.
  induction L as [|[s|] L IH]; csimpl; [done|..]; by rewrite IH.
Qed.

Lemma searchsorted_str (cs keys : list string) :
  StronglySorted StrOrd.lt cs →
  searchsorted String.ltb cs keys = rank String.ltb cs <$> keys.
Proof.
  apply searchsorted_sorted.
  - apply StrOrdFacts.ltb_irrefl.
  - apply StrOrdFacts.ltb_trans.
  - apply StrOrdFacts.ltb_total.
Qed.

(** On an ascending class list, [transform] maps every known label to its
    position in the list and every missing entry to [np.nan]. *)
Lemma transform_sorted (self : NaNLabelEncoder) (cs : list string)
    (marker : string) (L : list label) :
  classes_ self = Some cs →
  missing_value_marker self = Some marker →
  marker ∈ cs →
  StronglySorted StrOrd.lt cs →
  Forall (fun v => ∀ s, v = Some s → s ∈ cs) L →
  transform self L = Ok (encode cs <$> L).
Proof.
  intros Hcs Hm Hmc Hs HL. unfold transform, check_is_fitted. rewrite Hcs, Hm.
  assert ((if treat_unknown_as_missing self
           then zip_with orb (isnull <$> L) (negb <$> isin L (Some <$> cs))
           else isnull <$> L) = isnull <$> L) as ->.
  { destruct (treat_unknown_as_missing self); [|done]. by apply known_mask. }
  rewrite fill_marker.
  assert (∀ s, s ∈ unique_str (default marker <$> L) → s ∈ cs) as Hsub.
  { intros s. rewrite elem_of_unique_str, list_elem_of_fmap.
    intros ([t|] & -> & Hv); simpl; [|done].
    rewrite Forall_forall in HL. by apply (HL (Some t)). }
  rewrite (intersect1d_subseteq String.le _ _ Hsub).
  unfold unique_str. rewrite (unique_unique String.le).
  rewrite decide_False by lia.
  rewrite searchsorted_str by done. by rewrite encode_mask.
Qed.

Lemma fill_nan_fmap (cs : list string) (arr : list code) :
  fill_nan cs arr
  = (fun c => match c with
              | NaN => Code (Z.of_nat (length cs) - 1)
              | Code z => Code z
              end) <$> arr.
Proof.
  unfold fill_nan, mask_assign.
  induction arr as [|[z|] arr IH]; csimpl; [done|..]; by rewrite IH.
Qed.

Lemma transform_unfitted (self : NaNLabelEncoder) (y : list label) :
  classes_ self = None → transform self y = Raise (NotFittedError "classes_").
Proof. intros H. unfold transform, check_is_fitted. by rewrite H. Qed.

Lemma inverse_transform_unfitted (self : NaNLabelEncoder) (y : nat) (σ : store) :
  classes_ self = None →
  inverse_transform self y σ = (Raise (NotFittedError "classes_"), σ).
Proof.
  intros H. unfold inverse_transform, check_is_fitted, lift, mbind, M_bind.
  by rewrite H.
Qed.

(** [inverse_transform] written out for a fitted encoder and a valid array
    reference. *)
Lemma inverse_transform_fitted (self : NaNLabelEncoder) (cs : list string)
    (y : nat) (σ : store) (arr : list code) :
  classes_ self = Some cs → σ !! y = Some arr →
  inverse_transform self y σ =
    (let diff := setdiff1d Z.le
                   (codes_of (mask_select (negb <$> (code_isnull <$> arr))
                                          (fill_nan cs arr)))
                   (arange (length cs)) in
     match truth diff with
     | Ok true => Raise (ValueError_new_codes diff)
     | Ok false => getitem cs (codes_of (fill_nan cs arr))
     | Raise e => Raise e
     end,
     <[y := fill_nan cs arr]> σ).
Proof.
  intros Hcs Hy.
  unfold inverse_transform, check_is_fitted, lift, get, put, raise, mbind, M_bind.
  rewrite Hcs. simpl. rewrite Hy. fold (fill_nan cs arr).
  destruct (truth _) as [[|]|e]; done.
Qed.

Lemma elem_of_arange (n : nat) (z : Z) :
  z ∈ arange n ↔ (0 ≤ z < Z.of_nat n)%Z.
Proof.
  unfold arange. rewrite list_elem_of_fmap. split.
  - intros (i & -> & Hi). apply elem_of_seq in Hi. lia.
  - intros Hz. exists (Z.to_nat z). split; [lia|]. apply elem_of_seq. lia.
Qed.

Lemma rank_elem_of (cs : list string) (s : string) :
  StronglySorted StrOrd.lt cs → s ∈ cs →
  cs !! rank String.ltb cs s = Some s.
Proof.
  intros Hs Hin. apply list_elem_of_lookup in Hin as [i Hi].
  rewrite (rank_lookup String.ltb StrOrdFacts.ltb_irrefl StrOrdFacts.ltb_trans
             cs i s Hs Hi).
  done.
Qed.

Lemma selected_codes (cs : list string) (L : list label) :
  codes_of (mask_select (negb <$> (code_isnull <$> (encode cs <$> L)))
                        (fill_nan cs (encode cs <$> L)))
  = (fun s => Z.of_nat (rank String.ltb cs s)) <$> strings_of L.
Proof.
  unfold fill_nan, mask_assign, codes_of, strings_of.
  induction L as [|[s|] L IH]; csimpl; [done|..]; by rewrite IH.
Qed.

Lemma filled_codes (cs : list string) (L : list label) :
  codes_of (fill_nan cs (encode cs <$> L))
  = (fun v : label => match v with
             | None => (Z.of_nat (length cs) - 1)%Z
             | Some s => Z.of_nat (rank String.ltb cs s)
             end) <$> L.
Proof.
  unfold fill_nan, mask_assign, codes_of.
  induction L as [|[s|] L IH]; csimpl; [done|..]; by rewrite IH.
Qed.

Lemma known_entries (cs : list string) (L : list label) :
  Forall (fun s => s ∈ cs) (strings_of L) →
  Forall (fun v => ∀ s, v = Some s → s ∈ cs) L.
Proof.
  rewrite !Forall_forall. intros H v Hv s ->. apply H.
  unfold strings_of. apply list_elem_of_omap. by exists (Some s).
Qed.

(** [inverse_transform] on the codes of [transform], for an ascending class
    list that ends with the marker. *)
Lemma inverse_transform_encoded (self : NaNLabelEncoder) (cs : list string)
    (marker : string) (L : list label) (y : nat) (σ : store) :
  classes_ self = Some cs →
  last cs = Some marker →
  StronglySorted StrOrd.lt cs →
  Forall (fun v => ∀ s, v = Some s → s ∈ cs) L →
  σ !! y = Some (encode cs <$> L) →
  (inverse_transform self y σ).1 = Ok (default marker <$> L).
Proof.
  intros Hcs Hlast Hs HL Hy.
  rewrite (inverse_transform_fitted self cs y σ _ Hcs Hy). simpl.
  rewrite selected_codes, filled_codes.
  rewrite setdiff1d_subseteq; [simpl|].
  - unfold getitem.
    erewrite (proj2 (mapM_Some _ _ (default marker <$> L))); [done|].
    apply Forall2_fmap. apply Forall_Forall2_diag.
    eapply Forall_impl; [exact HL|]. intros [s|] Hv; simpl.
    + specialize (Hv s eq_refl).
      pose proof (rank_elem_of cs s Hs Hv) as Hrk.
      pose proof (lookup_lt_Some _ _ _ Hrk) as Hlt.
      unfold Py.index. rewrite decide_True by lia. simpl.
      by rewrite Nat2Z.id.
    + rewrite last_lookup in Hlast.
      pose proof (lookup_lt_Some _ _ _ Hlast) as Hlt.
      unfold Py.index. rewrite decide_True by lia. simpl.
      replace (Z.to_nat (Z.of_nat (length cs) - 1)) with (pred (length cs)) by lia.
      done.
  - intros z. rewrite list_elem_of_fmap. intros (s & -> & Hin).
    apply elem_of_arange.
    unfold strings_of in Hin. apply list_elem_of_omap in Hin as (v & Hv & Hvs).
    simpl in Hvs. subst v. rewrite Forall_forall in HL.
    pose proof (rank_elem_of cs s Hs (HL _ Hv s eq_refl)) as Hrk.
    apply lookup_lt_Some in Hrk. lia.
Qed.

End EncoderFacts.

(** ** Claims about the label encoder *)

Section encoder_claims.
Import Py Np NpFacts Encoder EncoderSpec EncoderFacts.

(** C1 (as the code has it).  For an encoder fitted on some label sequence
    whose marker sorts after every fitted label, and every sequence [L] whose
    entries are missing or belong to the fitted class list, [transform]
    succeeds and [inverse_transform] of its codes returns [L] with every
    missing entry replaced by the marker string (not by the missing value
    itself). *)
Theorem C1_round_trip_marker (self0 self : NaNLabelEncoder) (y0 L : list label)
    (marker : string) (cls : list string) (σ : store) :
  fit self0 y0 = Ok self →
  missing_value_marker self = Some marker →
  labels self = Some cls →
  Forall (fun s => StrOrd.lt s marker) cls →
  Forall (fun s => s ∈ cls ++ [marker]) (strings_of L) →
  ∃ codes,
    transform self L = Ok codes ∧
    (inverse_transform self (length σ) (σ ++ [codes])).1
    = Ok (default marker <$> L).
Proof.
  intros Hfit Hm Hl Hlt HL. apply known_entries in HL.
  apply fit_Ok in Hfit as (marker' & cls' & _ & _ & -> & Hs & _).
  simpl in Hm, Hl. injection Hm as ->. injection Hl as ->.
  assert (StronglySorted StrOrd.lt (cls ++ [marker])) as Hsorted.
  { apply StronglySorted_app. split_and!; [|done|repeat constructor].
    intros a b Ha Hb. apply list_elem_of_singleton in Hb as ->.
    rewrite Forall_forall in Hlt. by apply Hlt. }
  eexists. split.
  - apply (transform_sorted _ (cls ++ [marker]) marker); try done.
    apply elem_of_app. right. by apply list_elem_of_singleton.
  - apply (inverse_transform_encoded _ (cls ++ [marker]) marker); try done.
    + apply last_snoc.
    + by apply list_lookup_middle.
Qed.

Lemma C1_round_trip_marker_witness :
  let self0 := __init__ (Some "~NaN~") None false in
  let y0 := [Some "a"; Some "b"; None; Some "a"] in
  let self := {| missing_value_marker := Some "~NaN~";
                 labels := Some ["a"; "b"];
                 treat_unknown_as_missing := false;
                 classes_ := Some ["a"; "b"; "~NaN~"] |} in
  let L := [Some "b"; None; Some "a"; Some "~NaN~"] in
  fit self0 y0 = Ok self ∧
  Forall (fun s => StrOrd.lt s "~NaN~") ["a"; "b"] ∧
  Forall (fun s => s ∈ ["a"; "b"] ++ ["~NaN~"]) (strings_of L) ∧
  ∃ codes,
    transform self L = Ok codes ∧
    (inverse_transform self 0 [codes]).1 = Ok ["b"; "~NaN~"; "a"; "~NaN~"].
Proof.
  assert (Forall (fun s => StrOrd.lt s "~NaN~") ["a"; "b"]) as Hlt.
  { refine (bool_decide_unpack _ _). vm_compute. exact I. }
  assert (Forall (fun s => s ∈ ["a"; "b"] ++ ["~NaN~"])
            (strings_of [Some "b"; None; Some "a"; Some "~NaN~"])) as HL.
  { refine (bool_decide_unpack _ _). vm_compute. exact I. }
  split_and!; [reflexivity|exact Hlt|exact HL|].
  exact (C1_round_trip_marker (__init__ (Some "~NaN~") None false) _
           [Some "a"; Some "b"; None; Some "a"] _ "~NaN~" ["a"; "b"] []
           eq_refl eq_refl eq_refl Hlt HL).
Defined.

(** C1 as stated fails: a missing entry comes back as the marker string. *)
Lemma C1_missing_entry_not_reproduced :
  ∃ self codes r,
    fit (__init__ (Some default_marker) None false) [Some "a"; Some "b"; None]
    = Ok self ∧
    transform self [Some "a"; None] = Ok codes ∧
    (inverse_transform self 0 [codes]).1 = Ok r ∧
    (Some <$> r : list label) ≠ [Some "a"; None].
Proof.
  eexists _, _, _. split_and!; [reflexivity..|]. vm_compute. discriminate.
Qed.

(** C3 (as the code has it).  After fitting on [["a", "b", None, "a"]] the
    class order is [["a", "b", marker]]; [transform(["a", "c"])] with
    [treat_unknown_as_missing] returns [[0., nan]]: the unseen label is
    reported as [np.nan]. *)
Theorem C3_unseen_label_is_nan :
  ∃ self,
    fit (__init__ (Some default_marker) None true)
        [Some "a"; Some "b"; None; Some "a"] = Ok self ∧
    classes_ self = Some ["a"; "b"; default_marker] ∧
    transform self [Some "a"; Some "c"] = Ok [Code 0; NaN].
Proof. eexists. split_and!; reflexivity. Qed.

(** C3 as stated fails: the codes are not [[0, 2]]. *)
Lemma C3_codes_are_not_0_2 :
  ∃ self,
    fit (__init__ (Some default_marker) None true)
        [Some "a"; Some "b"; None; Some "a"] = Ok self ∧
    transform self [Some "a"; Some "c"] ≠ Ok [Code 0; Code 2].
Proof. eexists. split; [reflexivity|]. vm_compute. discriminate. Qed.

(** With [treat_unknown_as_missing] off, the same call raises and names the
    unseen label. *)
Lemma unseen_label_raises :
  ∃ self,
    fit (__init__ (Some default_marker) None false)
        [Some "a"; Some "b"; None; Some "a"] = Ok self ∧
    transform self [Some "a"; Some "c"] = Raise (ValueError_new_labels ["c"]).
Proof. eexists. split; reflexivity. Qed.

(** The default marker sorts before every letter and digit, so with such
    labels the fitted class list is not ascending. *)
Lemma default_marker_sorts_first :
  String.ltb default_marker "0" = true ∧
  String.ltb default_marker "A" = true ∧
  String.ltb default_marker "a" = true.
Proof. split_and!; reflexivity. Qed.

(** [np.searchsorted] on such a class list: the first probe of the search
    for ["a"] in [["a", "---NaN---"]] is index 1, where the marker is below
    the key, so the search ends at 2. *)
Lemma searchsorted_marker_last :
  bisect String.ltb 2 ["a"; default_marker] "a" 0 2 = (2, 2) ∧
  searchsorted String.ltb ["a"; default_marker] ["a"] = [2].
Proof. split; reflexivity. Qed.

(** With five classes the result for ["d"] depends on the key searched
    before it, as numpy keeps the bounds of the previous search. *)
Lemma searchsorted_previous_key :
  let cs := ["a"; "b"; "c"; "d"; default_marker] in
  searchsorted String.ltb cs ["d"] = [5] ∧
  searchsorted String.ltb cs ["a"; "b"; "c"; "d"] = [0; 1; 2; 3] ∧
  searchsorted String.ltb cs ["d"; "c"; "b"; "a"] = [5; 2; 1; 0].
Proof. split_and!; reflexivity. Qed.

(** C4, at the failing input.  Fitted on [["a"]] with the default marker, the
    class list is [["a", "---NaN---"]], which is not ascending; the binary
    search of [np.searchsorted] then returns 2 for ["a"], whose position in
    the class list is 0. *)
Theorem C4_rank_fails_on_unsorted_classes :
  ∃ self,
    fit (__init__ (Some default_marker) None false) [Some "a"] = Ok self ∧
    classes_ self = Some ["a"; default_marker] ∧
    transform self [Some "a"] = Ok [Code 2].
Proof. eexists. split_and!; reflexivity. Qed.

(** The first half of C4 holds: the fitted class list is the ascending,
    repeat-free list of the observed and the declared labels, followed by
    the marker. *)
Lemma fit_class_list (self self' : NaNLabelEncoder) (y : list label) :
  fit self y = Ok self' →
  ∃ marker cls,
    missing_value_marker self = Some marker ∧
    classes_ self' = Some (cls ++ [marker]) ∧
    labels self' = Some cls ∧
    StronglySorted StrOrd.lt cls ∧ NoDup cls ∧
    (∀ s, s ∈ cls ↔ Some s ∈ y ∨ s ∈ default [] (labels self)) ∧
    (cls ++ [marker]) !! length cls = Some marker.
Proof.
  intros Hfit. apply fit_Ok in Hfit as (marker & cls & Hm & _ & -> & Hs & Hin).
  exists marker, cls. split_and!; try done.
  - apply (strict_sorted_NoDup String.le). by apply strict_sorted_lt.
  - by apply list_lookup_middle.
Qed.

(** ... and so does the second half when the class list is ascending. *)
Lemma transform_rank_when_sorted (self : NaNLabelEncoder) (cs : list string)
    (marker : string) (L : list label) (i : nat) (s : string) (k : nat) :
  classes_ self = Some cs →
  missing_value_marker self = Some marker →
  marker ∈ cs →
  StronglySorted StrOrd.lt cs →
  Forall (fun v => ∀ s, v = Some s → s ∈ cs) L →
  L !! i = Some (Some s) → cs !! k = Some s →
  ∃ codes, transform self L = Ok codes ∧ codes !! i = Some (Code (Z.of_nat k)).
Proof.
  intros Hcs Hm Hmc Hs HL Hi Hk. eexists. split.
  - by eapply transform_sorted.
  - unfold label in *. rewrite list_lookup_fmap, Hi. simpl.
    by rewrite (rank_lookup String.ltb StrOrdFacts.ltb_irrefl
                  StrOrdFacts.ltb_trans cs k s Hs Hk).
Qed.

(** The round trip also needs the ascending class list: fitted on [["a"]]
    with the default marker, [inverse_transform] rejects the code that
    [transform] returns for ["a"]. *)
Lemma round_trip_fails_on_unsorted_classes :
  ∃ self codes,
    fit (__init__ (Some default_marker) None false) [Some "a"] = Ok self ∧
    transform self [Some "a"] = Ok codes ∧
    (inverse_transform self 0 [codes]).1 = Raise (ValueError_new_codes [2%Z]).
Proof. eexists _, _. split_and!; reflexivity. Qed.

(** C5, at the failing input.  [get_num_classes] has no [check_is_fitted]:
    on an encoder that was never fitted it returns the number of declared
    labels, or fails with a [TypeError] when none were declared. *)
Theorem C5_get_num_classes_not_guarded :
  classes_ (__init__ (Some default_marker) (Some ["x"; "y"]) false) = None ∧
  get_num_classes (__init__ (Some default_marker) (Some ["x"; "y"]) false)
  = Ok 2 ∧
  get_num_classes (__init__ (Some default_marker) None false)
  = Raise (TypeError "object of type 'NoneType' has no len()").
Proof. split_and!; reflexivity. Qed.

(** [transform] and [inverse_transform] do raise the not-fitted error. *)
Lemma transform_inverse_transform_guarded (self : NaNLabelEncoder)
    (y : list label) (l : nat) (σ : store) :
  classes_ self = None →
  transform self y = Raise (NotFittedError "classes_") ∧
  inverse_transform self l σ = (Raise (NotFittedError "classes_"), σ).
Proof.
  intros H. split; [by apply transform_unfitted|by apply inverse_transform_unfitted].
Qed.

(** C10.  On a fitted encoder, whatever [inverse_transform] returns or
    raises, the caller's array has every [np.nan] overwritten with
    [len(classes_) - 1]; so an array that held a [np.nan] has changed.  No
    other array is touched. *)
Theorem C10_inverse_transform_overwrites_nan (self : NaNLabelEncoder)
    (cs : list string) (σ : store) (y : nat) (arr : list code) :
  classes_ self = Some cs →
  σ !! y = Some arr →
  let σ' := (inverse_transform self y σ).2 in
  σ' !! y = Some ((fun c => match c with
                            | NaN => Code (Z.of_nat (length cs) - 1)
                            | Code z => Code z
                            end) <$> arr) ∧
  (NaN ∈ arr → σ' !! y ≠ σ !! y) ∧
  (∀ y', y' ≠ y → σ' !! y' = σ !! y').
Proof.
  intros Hcs Hy σ'. subst σ'.
  rewrite (inverse_transform_fitted self cs y σ arr Hcs Hy). simpl.
  pose proof (lookup_lt_Some _ _ _ Hy) as Hlt.
  unfold store in *.
  split_and!.
  - by rewrite list_lookup_insert_eq, fill_nan_fmap.
  - intros Hnan. rewrite list_lookup_insert_eq, fill_nan_fmap, Hy by done.
    intros [= Heq]. apply list_elem_of_lookup in Hnan as [i Hi].
    apply (f_equal (.!! i)) in Heq.
    rewrite list_lookup_fmap, Hi in Heq. done.
  - intros y' Hne. by rewrite list_lookup_insert_ne.
Qed.

Lemma C10_inverse_transform_overwrites_nan_witness :
  let self := {| missing_value_marker := Some default_marker;
                 labels := Some ["a"; "b"];
                 treat_unknown_as_missing := false;
                 classes_ := Some ["a"; "b"; default_marker] |} in
  let arr := [Code 0; NaN; Code 7] in
  let σ := [arr] in
  σ !! 0 = Some arr ∧
  NaN ∈ arr ∧
  (inverse_transform self 0 σ).1 = Raise (ValueError_new_codes [7%Z]) ∧
  (inverse_transform self 0 σ).2 !! 0 = Some [Code 0; Code 2; Code 7] ∧
  (inverse_transform self 0 σ).2 !! 0 ≠ σ !! 0.
Proof.
  intros self arr σ.
  assert (NaN ∈ arr) as Hnan.
  { refine (bool_decide_unpack _ _). vm_compute. exact I. }
  pose proof (C10_inverse_transform_overwrites_nan self
                ["a"; "b"; default_marker] σ 0 arr eq_refl eq_refl)
    as (H1 & H2 & _).
  split_and!; [reflexivity|exact Hnan|reflexivity|exact H1|exact (H2 Hnan)].
Defined.

End encoder_claims.

(** ** The missingness injectors and the splitter *)

Module MissingDataFacts.
Import Py MissingData MissingDataSpec.

Section rules.
Context {A B : Type}.
Implicit Types (P E : state → Prop).

Lemma hoare_ret P (a : A) (Q : A → state → Prop) E :
  (∀ σ, P σ → Q a σ) → hoare P (mret a) Q E.
Proof. intros H σ HP. by apply H. Qed.

Lemma hoare_raise P (e : exn) (Q : A → state → Prop) E :
  (∀ σ, P σ → E σ) → hoare P (raise e) Q E.
Proof. intros H σ HP. by apply H. Qed.

Lemma hoare_lift P (r : result A) (Q : A → state → Prop) E :
  (∀ σ, P σ → match r with Ok a => Q a σ | Raise _ => E σ end) →
  hoare P (lift r) Q E.
Proof. intros H σ HP. unfold lift. specialize (H σ HP). by destruct r. Qed.

Lemma hoare_bind P (m : M state A) (k : A → M state B)
    (Q : A → state → Prop) (R : B → state → Prop) E :
  hoare P m Q E → (∀ a, hoare (Q a) (k a) R E) → hoare P (m ≫= k) R E.
Proof.
  intros Hm Hk σ HP. unfold mbind, M_bind. specialize (Hm σ HP).
  destruct (m σ) as [[a|e] σ']; [|done]. by apply Hk.
Qed.

Lemma hoare_conseq P P' (m : M state A) (Q Q' : A → state → Prop) E E' :
  hoare P' m Q' E' →
  (∀ σ, P σ → P' σ) → (∀ a σ, Q' a σ → Q a σ) → (∀ σ, E' σ → E σ) →
  hoare P m Q E.
Proof.
  intros Hm HP HQ HE σ Hσ. specialize (Hm σ (HP σ Hσ)).
  destruct (m σ) as [[a|e] σ']; auto.
Qed.

End rules.

Lemma hoare_heap_neutral {A} (Φ : list ndarray → Prop) (m : M state A) :
  heap_neutral m →
  hoare (fun σ => Φ (heap σ)) m (fun _ σ => Φ (heap σ)) (fun σ => Φ (heap σ)).
Proof.
  intros Hm σ HP. specialize (Hm σ).
  destruct (m σ) as [[a|e] σ']; simpl in Hm; by rewrite Hm.
Qed.

Lemma read_matrix_neutral (l : nat) : heap_neutral (read_matrix l).
Proof. intros σ. unfold read_matrix. by repeat case_match. Qed.

Lemma read_vector_neutral (l : nat) : heap_neutral (read_vector l).
Proof. intros σ. unfold read_vector. by repeat case_match. Qed.

Lemma np_random_seed_neutral (s : Z) : heap_neutral (np_random_seed s).
Proof. done. Qed.

Lemma call_neutral (i : nat) (f : callable) (arg : list float) :
  heap_neutral (call i f arg).
Proof. done. Qed.

Lemma lift_neutral {A} (r : result A) : heap_neutral (lift r : M state A).
Proof. done. Qed.

Lemma hoare_alloc (h : list ndarray) (a : ndarray) :
  hoare (kept h) (alloc a) (result_only h) (kept h).
Proof.
  intros σ [k Hk]. unfold alloc, result_only, kept, new_in. simpl.
  rewrite Hk. split.
  - exists (k ++ [a]). by rewrite (assoc_L (++)).
  - rewrite !length_app. simpl. lia.
Qed.

Lemma hoare_write (h : list ndarray) (l : nat) (a : ndarray) :
  hoare (result_only h l) (write l a) (fun _ => result_only h l) (kept h).
Proof.
  intros σ [[k Hk] [Hl1 Hl2]]. unfold write, result_only, kept, new_in. simpl.
  rewrite length_insert. split; [|done].
  rewrite Hk, insert_app_r_alt by done. by eexists.
Qed.

Lemma result_only_neutral {A} (h : list ndarray) (l : nat) (m : M state A) :
  heap_neutral m →
  hoare (result_only h l) m (fun _ => result_only h l) (kept h).
Proof.
  intros Hm. eapply hoare_conseq.
  - apply (hoare_heap_neutral (fun hp => h `prefix_of` hp ∧ length h ≤ l < length hp)).
    exact Hm.
  - done.
  - done.
  - by intros σ [? _].
Qed.

Lemma hoare_set_column (h : list ndarray) (l i : nat) (col : list float) :
  hoare (result_only h l) (set_column l i col)
        (fun _ => result_only h l) (kept h).
Proof.
  unfold set_column.
  eapply hoare_bind; [apply result_only_neutral, read_matrix_neutral|].
  intros X. eapply hoare_bind; [apply result_only_neutral, lift_neutral|].
  intros col'. apply hoare_write.
Qed.

Lemma hoare_set_row (h : list ndarray) (l i : nat) (row : list float) :
  hoare (result_only h l) (set_row l i row)
        (fun _ => result_only h l) (kept h).
Proof.
  unfold set_row.
  eapply hoare_bind; [apply result_only_neutral, read_matrix_neutral|].
  intros X. eapply hoare_bind; [apply result_only_neutral, lift_neutral|].
  intros row'. apply hoare_write.
Qed.

Lemma hoare_for_range (I E : state → Prop) (range : list nat)
    (body : nat → M state unit) :
  (∀ i, hoare I (body i) (fun _ => I) E) →
  hoare I (for_range range body) (fun _ => I) E.
Proof.
  intros Hbody. induction range as [|i range IH]; simpl.
  - by apply hoare_ret.
  - eapply hoare_bind; [apply Hbody|]. intros ?. apply IH.
Qed.

Lemma hoare_get_nmar (h : list ndarray) (X : nat)
    (missing_likelihood : list (option callable)) (random_state : Z) :
  hoare (kept h) (get_nmar_incomplete_data X missing_likelihood random_state)
        (result_only h) (kept h).
Proof.
  unfold get_nmar_incomplete_data.
  eapply hoare_bind; [apply (hoare_heap_neutral (fun hp => h `prefix_of` hp)), np_random_seed_neutral|].
  intros ?.
  eapply hoare_bind; [apply (hoare_heap_neutral (fun hp => h `prefix_of` hp)), read_matrix_neutral|].
  intros Xv. case_decide; [by apply hoare_raise|].
  eapply hoare_bind; [apply hoare_alloc|]. intros X_ret.
  eapply hoare_bind.
  - apply hoare_for_range. intros i.
    destruct (missing_likelihood !! i) as [[f|]|]; try by apply hoare_ret.
    eapply hoare_bind; [apply result_only_neutral, read_matrix_neutral|].
    intros Xv'.
    eapply hoare_bind; [apply result_only_neutral, call_neutral|].
    intros col. apply hoare_set_column.
  - intros ?. by apply hoare_ret.
Qed.

Lemma hoare_get_mar (h : list ndarray) (X : nat)
    (missing_likelihood : callable) (random_state : Z) :
  hoare (kept h) (get_mar_incomplete_data X missing_likelihood random_state)
        (result_only h) (kept h).
Proof.
  unfold get_mar_incomplete_data.
  eapply hoare_bind; [apply (hoare_heap_neutral (fun hp => h `prefix_of` hp)), np_random_seed_neutral|].
  intros ?.
  eapply hoare_bind; [apply (hoare_heap_neutral (fun hp => h `prefix_of` hp)), read_matrix_neutral|].
  intros Xv.
  eapply hoare_bind; [apply hoare_alloc|]. intros X_ret.
  eapply hoare_bind.
  - apply hoare_for_range. intros i.
    eapply hoare_bind; [apply result_only_neutral, read_matrix_neutral|].
    intros Xv'.
    eapply hoare_bind; [apply result_only_neutral, call_neutral|].
    intros row. apply hoare_set_row.
  - intros ?. by apply hoare_ret.
Qed.

(** From a triple to the statement about one call. *)
Lemma hoare_copies (m : M state nat) (σ : state) :
  hoare (kept (heap σ)) m (result_only (heap σ)) (kept (heap σ)) →
  copies σ (m σ) (fun r => [r]).
Proof.
  intros Hm. assert (kept (heap σ) σ) as Hσ by (by exists []; rewrite app_nil_r).
  specialize (Hm σ Hσ). unfold copies.
  destruct (m σ) as [[r|e] σ']; simpl; [|done].
  destruct Hm as [Hk Hn]. split; [done|].
  split; [by apply Forall_singleton|]. apply NoDup_singleton.
Qed.

(** [mechanims] is neither a parameter of [get_incomplete_data] nor a name of
    the module. *)
Lemma mechanims_unbound (mechanism : string) :
  load_name [("X", BObject); ("mechanism", BStr mechanism);
             ("missing_likelihood", BObject); ("random_state", BObject)]
            "mechanims"
  = Raise (NameError "mechanims").
Proof. reflexivity. Qed.

(** The parameter [mechanism] itself is bound, to the caller's string. *)
Lemma mechanism_bound (mechanism : string) :
  load_name [("X", BObject); ("mechanism", BStr mechanism);
             ("missing_likelihood", BObject); ("random_state", BObject)]
            "mechanism"
  = Ok (BStr mechanism).
Proof. reflexivity. Qed.

Section external.
Variable uniform : Z → nat → Q.
Variable stratified_kfold :
  Z → Z → nat → list float → result (list (list nat * list nat)).

(** [mask_random_values] written out. *)
Lemma mask_random_values_Ok (σ : state) (X : nat) (Xv : matrix) (p : Q)
    (return_mask : bool) (random_state : Z) :
  heap σ !! X = Some (Arr2 Xv) →
  mask_random_values uniform X p return_mask random_state σ =
    (Ok (length (heap σ),
         if return_mask then Some (random_mask uniform Xv p random_state)
         else None),
     {| heap := heap σ
                ++ [Arr2 (masked (random_mask uniform Xv p random_state) Xv)];
        np_random := {| seed := random_state;
                        drawn := shape0 Xv * shape1 Xv |};
        trace := trace σ |}).
Proof.
  intros HX. unfold mask_random_values, np_random_seed, read_matrix, alloc,
    mbind, M_bind, mret, M_ret. simpl. by rewrite HX.
Qed.

Lemma mask_random_values_Raise (σ : state) (X : nat) (p : Q)
    (return_mask : bool) (random_state : Z) :
  (∀ Xv, heap σ !! X ≠ Some (Arr2 Xv)) →
  mask_random_values uniform X p return_mask random_state σ =
    (Raise (TypeError "not a 2-D array"),
     {| heap := heap σ;
        np_random := {| seed := random_state; drawn := 0 |};
        trace := trace σ |}).
Proof.
  intros HX. unfold mask_random_values, np_random_seed, read_matrix,
    mbind, M_bind. simpl.
  destruct (heap σ !! X) as [[Xv|v]|]; try done. by destruct (HX Xv).
Qed.

Lemma get_mcar_Ok (σ : state) (X : nat) (Xv : matrix) (p : Q)
    (random_state : Z) :
  heap σ !! X = Some (Arr2 Xv) →
  get_mcar_incomplete_data uniform X p random_state σ =
    (Ok (length (heap σ)),
     {| heap := heap σ
                ++ [Arr2 (masked (random_mask uniform Xv p random_state) Xv)];
        np_random := {| seed := random_state;
                        drawn := shape0 Xv * shape1 Xv |};
        trace := trace σ |}).
Proof.
  intros HX. unfold get_mcar_incomplete_data, mbind, M_bind at 1.
  by rewrite (mask_random_values_Ok σ X Xv p true random_state HX).
Qed.

Lemma get_mcar_copies (σ : state) (X : nat) (p : Q) (random_state : Z) :
  copies σ (get_mcar_incomplete_data uniform X p random_state σ)
         (fun r => [r]).
Proof.
  destruct (heap σ !! X) as [[Xv|v]|] eqn:HX.
  - rewrite (get_mcar_Ok σ X Xv p random_state HX). unfold copies, kept, new_in.
    simpl. split; [by eexists|]. split; [|apply NoDup_singleton].
    apply Forall_singleton. rewrite length_app. simpl. lia.
  - unfold get_mcar_incomplete_data, mbind, M_bind at 1.
    rewrite mask_random_values_Raise by (intros Xv; congruence).
    split; [by exists []; rewrite app_nil_r|done].
  - unfold get_mcar_incomplete_data, mbind, M_bind at 1.
    rewrite mask_random_values_Raise by (intros Xv; congruence).
    split; [by exists []; rewrite app_nil_r|done].
Qed.

Lemma take_rows_Ok (idx : list nat) (X r : matrix) :
  take_rows idx X = Ok r →
  ncols r = ncols X ∧ Some <$> rows r = rows_at idx X.
Proof.
  unfold take_rows, take, rows_at.
  destruct (mapM _ idx) as [k|] eqn:Hk; [|done]. intros [= <-]. simpl.
  split; [done|]. apply mapM_Some in Hk.
  induction Hk as [|i x idx k Hi _ IH]; csimpl; [done|]. by rewrite Hi, IH.
Qed.

Lemma take_rows_total (idx : list nat) (X : matrix) :
  Forall (fun i => i < shape0 X) idx → ∃ r, take_rows idx X = Ok r.
Proof.
  intros Hidx. unfold take_rows, take.
  destruct (mapM (rows X !!.) idx) as [k|] eqn:Hk; [by eexists|].
  apply mapM_None in Hk. apply Exists_exists in Hk as (i & Hi & Hnone).
  rewrite Forall_forall in Hidx. apply Hidx in Hi.
  apply lookup_ge_None in Hnone. unfold shape0 in Hi. lia.
Qed.

(** What a successful call of the splitter has done. *)
Lemma splits_Ok (σ σ' : state) (X_complete X_incomplete y : nat)
    (Xc Xi : matrix) (fold num_folds random_state : Z) (d : IncompleteDataset) :
  heap σ !! X_complete = Some (Arr2 Xc) →
  heap σ !! X_incomplete = Some (Arr2 Xi) →
  get_incomplete_data_splits stratified_kfold X_complete X_incomplete y
    fold num_folds random_state σ = (Ok d, σ') →
  ∃ yv splits train test a1 a2 a3 a4 a5 a6,
    heap σ !! y = Some (Arr1 yv) ∧
    stratified_kfold num_folds random_state (shape0 Xc) yv = Ok splits ∧
    nth splits fold = Ok (Some (train, test)) ∧
    take_rows train Xc = Ok a1 ∧ take train yv = Ok a2 ∧
    take_rows test Xc = Ok a3 ∧ take test yv = Ok a4 ∧
    take_rows train Xi = Ok a5 ∧ take_rows test Xi = Ok a6 ∧
    heap σ' = heap σ ++ [Arr2 a1; Arr1 a2; Arr2 a3; Arr1 a4; Arr2 a5; Arr2 a6] ∧
    d = {| X_train_complete := length (heap σ);
           y_train := length (heap σ) + 1;
           X_test_complete := length (heap σ) + 2;
           y_test := length (heap σ) + 3;
           X_train_incomplete := length (heap σ) + 4;
           X_test_incomplete := length (heap σ) + 5 |}.
Proof.
  intros HXc HXi.
  unfold get_incomplete_data_splits, read_matrix, read_vector, lift, raise,
    alloc, mbind, M_bind, mret, M_ret.
  rewrite HXc.
  destruct (heap σ !! y) as [[?|yv]|]; try done.
  destruct (stratified_kfold _ _ _ _) as [splits|] eqn:Hsplits; [|done].
  destruct (nth splits fold) as [[[train test]|]|] eqn:Hnth; try done.
  destruct (take_rows train Xc) as [a1|] eqn:H1; [|done].
  destruct (take train yv) as [a2|] eqn:H2; [|done].
  destruct (take_rows test Xc) as [a3|] eqn:H3; [|done].
  destruct (take test yv) as [a4|] eqn:H4; [|done].
  simpl.
  pose proof (lookup_lt_Some _ _ _ HXi) as Hlt.
  rewrite !lookup_app_l by (rewrite ?length_app; simpl; lia).
  rewrite HXi.
  destruct (take_rows train Xi) as [a5|] eqn:H5; [|done].
  destruct (take_rows test Xi) as [a6|] eqn:H6; [|done].
  simpl. intros [= <- <-]. simpl.
  exists yv, splits, train, test, a1, a2, a3, a4, a5, a6.
  split_and!; try done; rewrite ?length_app, <-?(assoc_L (++)); simpl;
    try done; f_equal; lia.
Qed.

(** Whatever the splitter returns or raises, the arrays of the caller are
    kept and the six arrays of the result are new. *)
Lemma splits_copies (σ : state) (X_complete X_incomplete y : nat)
    (fold num_folds random_state : Z) :
  copies σ
    (get_incomplete_data_splits stratified_kfold X_complete X_incomplete y
       fold num_folds random_state σ)
    dataset_arrays.
Proof.
  unfold get_incomplete_data_splits, read_matrix, read_vector, lift, raise,
    alloc, mbind, M_bind, mret, M_ret, copies, kept, new_in, dataset_arrays.
  repeat (case_match; simplify_eq/=).
  all: rewrite <-?(assoc_L (++)).
  all: try (split; [by eexists|]).
  all: try done.
  all: try (split; [by exists []; rewrite app_nil_r|done]).
  rewrite !length_app. simpl. split.
  - rewrite !Forall_cons, Forall_nil. lia.
  - rewrite !NoDup_cons, !not_elem_of_cons, NoDup_nil.
    split_and!; try lia; try apply not_elem_of_nil; done.
Qed.

Lemma take_total {A} (idx : list nat) (a : list A) :
  Forall (fun i => i < length a) idx → ∃ r, take idx a = Ok r.
Proof.
  intros Hidx. unfold take.
  destruct (mapM (a !!.) idx) as [k|] eqn:Hk; [by eexists|].
  apply mapM_None in Hk. apply Exists_exists in Hk as (i & Hi & Hnone).
  rewrite Forall_forall in Hidx. apply Hidx in Hi.
  apply lookup_ge_None in Hnone. lia.
Qed.

(** The splitter returns a dataset whenever scikit-learn yields the
    requested fold and its indices are rows of both matrices and entries of
    the label vector. *)
Lemma splits_returns (σ : state) (X_complete X_incomplete y : nat)
    (Xc Xi : matrix) (yv : list float) (fold num_folds random_state : Z)
    (splits : list (list nat * list nat)) (train test : list nat) :
  heap σ !! X_complete = Some (Arr2 Xc) →
  heap σ !! X_incomplete = Some (Arr2 Xi) →
  heap σ !! y = Some (Arr1 yv) →
  stratified_kfold num_folds random_state (shape0 Xc) yv = Ok splits →
  nth splits fold = Ok (Some (train, test)) →
  Forall (fun i => i < shape0 Xc ∧ i < shape0 Xi ∧ i < length yv)
         (train ++ test) →
  ∃ d σ',
    get_incomplete_data_splits stratified_kfold X_complete X_incomplete y
      fold num_folds random_state σ = (Ok d, σ').
Proof.
  intros HXc HXi Hy Hsplits Hnth Hidx.
  apply Forall_app in Hidx as [Htrain Htest].
  destruct (take_rows_total train Xc) as [a1 H1].
  { eapply Forall_impl; [exact Htrain|]. by intros i (? & ? & ?). }
  destruct (take_total train yv) as [a2 H2].
  { eapply Forall_impl; [exact Htrain|]. by intros i (? & ? & ?). }
  destruct (take_rows_total test Xc) as [a3 H3].
  { eapply Forall_impl; [exact Htest|]. by intros i (? & ? & ?). }
  destruct (take_total test yv) as [a4 H4].
  { eapply Forall_impl; [exact Htest|]. by intros i (? & ? & ?). }
  destruct (take_rows_total train Xi) as [a5 H5].
  { eapply Forall_impl; [exact Htrain|]. by intros i (? & ? & ?). }
  destruct (take_rows_total test Xi) as [a6 H6].
  { eapply Forall_impl; [exact Htest|]. by intros i (? & ? & ?). }
  unfold get_incomplete_data_splits, read_matrix, read_vector, lift, raise,
    alloc, mbind, M_bind, mret, M_ret.
  rewrite HXc, Hy, Hsplits, Hnth, H1, H2, H3, H4. simpl.
  pose proof (lookup_lt_Some _ _ _ HXi) as Hlt.
  rewrite !lookup_app_l by (rewrite ?length_app; simpl; lia).
  rewrite HXi, H5, H6. simpl. by eexists _, _.
Qed.

End external.

End MissingDataFacts.

(** ** Claims about the injectors and the splitter *)

Section missing_data_claims.
Import Py MissingData MissingDataSpec MissingDataFacts Examples.

Variable uniform : Z → nat → Q.
Variable stratified_kfold :
  Z → Z → nat → list float → result (list (list nat * list nat)).

(** C2, at every input.  The first statement of [get_incomplete_data] reads
    the name [mechanims], which is bound nowhere: whatever the mechanism tag
    and the other arguments, the call raises [NameError] and does nothing
    else. *)
Theorem C2_dispatch_raises_NameError (X : nat) (mechanism : string)
    (missing_likelihood : likelihood) (random_state : Z) (σ : state) :
  get_incomplete_data uniform X mechanism missing_likelihood random_state σ
  = (Raise (NameError "mechanims"), σ).
Proof.
  unfold get_incomplete_data, lift, mbind, M_bind.
  by rewrite mechanims_unbound.
Qed.

(** C6.  The matrix and the mask that [get_mcar_incomplete_data] (through
    [mask_random_values]) produces for a matrix, a probability and a seed
    are the same in every state of the program in which it is called. *)
Theorem C6_mcar_deterministic (Xv : matrix) (p : Q) (random_state : Z) :
  ∃ out mask,
    ∀ σ X, heap σ !! X = Some (Arr2 Xv) →
      (∃ r σ',
         get_mcar_incomplete_data uniform X p random_state σ = (Ok r, σ') ∧
         heap σ' !! r = Some (Arr2 out)) ∧
      (∃ r σ',
         mask_random_values uniform X p true random_state σ
         = (Ok (r, Some mask), σ') ∧
         heap σ' !! r = Some (Arr2 out)).
Proof.
  exists (masked (random_mask uniform Xv p random_state) Xv),
         (random_mask uniform Xv p random_state).
  intros σ X HX. split; eexists _, _.
  - split; [by apply get_mcar_Ok|]. simpl. by apply list_lookup_middle.
  - split; [exact (mask_random_values_Ok uniform σ X Xv p true random_state HX)|].
    simpl. by apply list_lookup_middle.
Qed.

(** C7.  Whatever they return or raise, the three injectors and the
    splitter keep every array that the caller holds as it was, and the
    arrays they return are new. *)
Theorem C7_results_are_copies (σ : state) :
  (∀ X p random_state,
     copies σ (get_mcar_incomplete_data uniform X p random_state σ)
            (fun r => [r])) ∧
  (∀ X missing_likelihood random_state,
     copies σ (get_nmar_incomplete_data X missing_likelihood random_state σ)
            (fun r => [r])) ∧
  (∀ X missing_likelihood random_state,
     copies σ (get_mar_incomplete_data X missing_likelihood random_state σ)
            (fun r => [r])) ∧
  (∀ X_complete X_incomplete y fold num_folds random_state,
     copies σ
       (get_incomplete_data_splits stratified_kfold X_complete X_incomplete y
          fold num_folds random_state σ)
       dataset_arrays).
Proof.
  split_and!.
  - intros. apply get_mcar_copies.
  - intros. apply hoare_copies, hoare_get_nmar.
  - intros. apply hoare_copies, hoare_get_mar.
  - intros. apply splits_copies.
Qed.

(** C8.  When the list of callables is not as long as [X] has columns,
    [get_nmar_incomplete_data] raises [ValueError]; no callable has been
    called and no array has been written or allocated. *)
Theorem C8_nmar_length_mismatch (σ : state) (X : nat) (Xv : matrix)
    (missing_likelihood : list (option callable)) (random_state : Z) :
  heap σ !! X = Some (Arr2 Xv) →
  length missing_likelihood ≠ shape1 Xv →
  ∃ msg σ',
    get_nmar_incomplete_data X missing_likelihood random_state σ
    = (Raise (ValueError msg), σ') ∧
    trace σ' = trace σ ∧ heap σ' = heap σ.
Proof.
  intros HX Hlen. eexists _, _.
  unfold get_nmar_incomplete_data, np_random_seed, read_matrix, raise,
    mbind, M_bind. simpl. rewrite HX.
  rewrite decide_True by done. done.
Qed.

(** C9.  In the dataset that [get_incomplete_data_splits] returns, the
    complete and the incomplete train matrices hold the rows of their
    sources at the same index sequence [train], in that order, and the two
    test matrices those at the same [test]. *)
Theorem C9_same_rows_selected (σ σ' : state) (X_complete X_incomplete y : nat)
    (Xc Xi : matrix) (fold num_folds random_state : Z) (d : IncompleteDataset) :
  heap σ !! X_complete = Some (Arr2 Xc) →
  heap σ !! X_incomplete = Some (Arr2 Xi) →
  get_incomplete_data_splits stratified_kfold X_complete X_incomplete y
    fold num_folds random_state σ = (Ok d, σ') →
  ∃ train test train_c train_i test_c test_i,
    heap σ' !! X_train_complete d = Some (Arr2 train_c) ∧
    heap σ' !! X_train_incomplete d = Some (Arr2 train_i) ∧
    heap σ' !! X_test_complete d = Some (Arr2 test_c) ∧
    heap σ' !! X_test_incomplete d = Some (Arr2 test_i) ∧
    Some <$> rows train_c = rows_at train Xc ∧
    Some <$> rows train_i = rows_at train Xi ∧
    Some <$> rows test_c = rows_at test Xc ∧
    Some <$> rows test_i = rows_at test Xi.
Proof.
  intros HXc HXi Hrun.
  destruct (splits_Ok stratified_kfold _ _ _ _ _ _ _ _ _ _ _ HXc HXi Hrun)
    as (yv & splits & train & test & a1 & a2 & a3 & a4 & a5 & a6
        & _ & _ & _ & H1 & _ & H3 & _ & H5 & H6 & Hheap & ->).
  exists train, test, a1, a5, a3, a6. simpl. rewrite Hheap.
  split_and!.
  - by rewrite lookup_app_r, Nat.sub_diag by lia.
  - rewrite lookup_app_r by lia.
    by replace (length (heap σ) + 4 - length (heap σ)) with 4 by lia.
  - rewrite lookup_app_r by lia.
    by replace (length (heap σ) + 2 - length (heap σ)) with 2 by lia.
  - rewrite lookup_app_r by lia.
    by replace (length (heap σ) + 5 - length (heap σ)) with 5 by lia.
  - by apply take_rows_Ok in H1 as [_ ?].
  - by apply take_rows_Ok in H5 as [_ ?].
  - by apply take_rows_Ok in H3 as [_ ?].
  - by apply take_rows_Ok in H6 as [_ ?].
Qed.

End missing_data_claims.

Section missing_data_witnesses.
Import Py MissingData MissingDataSpec Examples.
Local Open Scope Q_scope.

(** Two runs on a 100×4 matrix with p = 0.2 and seed 8675309, the second in
    the state that the first has left. *)
Lemma C6_mcar_deterministic_witness :
  let X := counting_matrix 100 4 in
  let σ1 := initial [Arr2 X] 0 in
  let σ2 := (get_mcar_incomplete_data lcg_uniform 0 (2 # 10) 8675309 σ1).2 in
  heap σ1 !! 0%nat = Some (Arr2 X) ∧
  heap σ2 !! 0%nat = Some (Arr2 X) ∧
  ∃ out,
    (∃ r σ',
       get_mcar_incomplete_data lcg_uniform 0 (2 # 10) 8675309 σ1 = (Ok r, σ') ∧
       heap σ' !! r = Some (Arr2 out)) ∧
    (∃ r σ',
       get_mcar_incomplete_data lcg_uniform 0 (2 # 10) 8675309 σ2 = (Ok r, σ') ∧
       heap σ' !! r = Some (Arr2 out)).
Proof.
  intros X σ1 σ2.
  assert (heap σ1 !! 0%nat = Some (Arr2 X)) as H1 by reflexivity.
  assert (heap σ2 !! 0%nat = Some (Arr2 X)) as H2 by reflexivity.
  split; [exact H1|]. split; [exact H2|].
  destruct (C6_mcar_deterministic lcg_uniform X (2 # 10) 8675309)
    as (out & mask & H).
  exists out. split; [exact (proj1 (H σ1 0%nat H1))|exact (proj1 (H σ2 0%nat H2))].
Defined.

Lemma C8_nmar_length_mismatch_witness :
  let X := counting_matrix 3 2 in
  let σ := initial [Arr2 X] 0 in
  let fs := [Some (remove_large_values 4)] in
  heap σ !! 0%nat = Some (Arr2 X) ∧
  length fs ≠ shape1 X ∧
  ∃ msg σ',
    get_nmar_incomplete_data 0 fs 8675309 σ = (Raise (ValueError msg), σ') ∧
    trace σ' = trace σ ∧ heap σ' = heap σ.
Proof.
  intros X σ fs.
  assert (heap σ !! 0%nat = Some (Arr2 X)) as H1 by reflexivity.
  assert (length fs ≠ shape1 X) as H2 by (simpl; lia).
  split; [exact H1|]. split; [exact H2|].
  exact (C8_nmar_length_mismatch σ 0 X fs 8675309 H1 H2).
Defined.

Lemma C9_same_rows_selected_witness :
  let Xc := counting_matrix 6 2 in
  let Xi := masked [[true; false]; [false; false]; [false; true];
                    [false; false]; [true; true]; [false; false]] Xc in
  let σ := initial [Arr2 Xc; Arr2 Xi;
                    Arr1 [Num 0; Num 1; Num 0; Num 1; Num 0; Num 1]] 0 in
  let run := get_incomplete_data_splits dealt_kfold 0 1 2 1 3 8675309 σ in
  let d := {| X_train_complete := 3; X_train_incomplete := 7;
              X_test_complete := 5; X_test_incomplete := 8;
              y_train := 4; y_test := 6 |} in
  heap σ !! 0%nat = Some (Arr2 Xc) ∧
  heap σ !! 1%nat = Some (Arr2 Xi) ∧
  run = (Ok d, run.2) ∧
  ∃ train test train_c train_i test_c test_i,
    heap run.2 !! X_train_complete d = Some (Arr2 train_c) ∧
    heap run.2 !! X_train_incomplete d = Some (Arr2 train_i) ∧
    heap run.2 !! X_test_complete d = Some (Arr2 test_c) ∧
    heap run.2 !! X_test_incomplete d = Some (Arr2 test_i) ∧
    Some <$> rows train_c = rows_at train Xc ∧
    Some <$> rows train_i = rows_at train Xi ∧
    Some <$> rows test_c = rows_at test Xc ∧
    Some <$> rows test_i = rows_at test Xi.
Proof.
  intros Xc Xi σ run d.
  assert (heap σ !! 0%nat = Some (Arr2 Xc)) as H1 by reflexivity.
  assert (heap σ !! 1%nat = Some (Arr2 Xi)) as H2 by reflexivity.
  assert (run = (Ok d, run.2)) as H3 by reflexivity.
  split; [exact H1|]. split; [exact H2|]. split; [exact H3|].
  exact (C9_same_rows_selected dealt_kfold σ run.2 0 1 2 Xc Xi 1 3 8675309 d
           H1 H2 H3).
Defined.

End missing_data_witnesses.

(** ** More on the numpy primitives *)

Module NpMore.
Import Np NpFacts.

Section unique.
Context {A : Type} (R : relation A).
Context `{!∀ x y, Decision (R x y)} `{!EqDecision A}.
Context `{!Transitive R} `{!Total R} `{!AntiSymm (=) R}.

(** Two ascending arrays without repeats that hold the same values are the
    same array. *)
Lemma strict_sorted_ext (l1 l2 : list A) :
  StronglySorted (strict R) l1 → StronglySorted (strict R) l2 →
  (∀ x, x ∈ l1 ↔ x ∈ l2) → l1 = l2.
Proof.
  intros H1 H2 Hext. apply (StronglySorted_unique R).
  - by apply strict_sorted_sorted.
  - by apply strict_sorted_sorted.
  - apply NoDup_Permutation; [by eapply strict_sorted_NoDup..|done].
Qed.

Lemma strict_sorted_filter (P : A → Prop) `{!∀ x, Decision (P x)} (l : list A) :
  StronglySorted (strict R) l → StronglySorted (strict R) (filter P l).
Proof.
  induction 1 as [|x l Hs IH Hall]; [constructor|].
  rewrite filter_cons. destruct (decide (P x)); [|done].
  constructor; [done|]. apply Forall_forall. intros y Hy.
  apply list_elem_of_filter in Hy as [_ Hy].
  rewrite Forall_forall in Hall. by apply Hall.
Qed.

Lemma elem_of_setdiff1d (a b : list A) (x : A) :
  x ∈ setdiff1d R a b ↔ x ∈ a ∧ x ∉ b.
Proof.
  unfold setdiff1d. rewrite list_elem_of_filter, !elem_of_unique. tauto.
Qed.

Lemma setdiff1d_sorted (a b : list A) :
  StronglySorted (strict R) (setdiff1d R a b).
Proof. apply strict_sorted_filter, unique_sorted; apply _. Qed.

Lemma elem_of_intersect1d (a b : list A) (x : A) :
  x ∈ intersect1d R a b ↔ x ∈ a ∧ x ∈ b.
Proof.
  unfold intersect1d. rewrite list_elem_of_filter, !elem_of_unique. tauto.
Qed.

(** The test [len(np.intersect1d(classes, b)) < len(classes)] of
    [transform], for [classes = np.unique(y)]. *)
Lemma intersect1d_shorter (y b : list A) :
  length (intersect1d R (unique R y) b) < length (unique R y) ↔
  ∃ x, x ∈ y ∧ x ∉ b.
Proof.
  split.
  - intros Hlt. destruct (decide (Forall (fun x => x ∈ b) y)) as [Hall|Hex].
    + assert (∀ x, x ∈ unique R y → x ∈ b) as Hsub.
      { intros x. rewrite elem_of_unique. rewrite Forall_forall in Hall. apply Hall. }
      rewrite (intersect1d_subseteq R _ _ Hsub), (unique_unique R) in Hlt. lia.
    + apply not_Forall_Exists in Hex; [|apply _].
      apply Exists_exists in Hex as (x & Hx & Hnx). eauto.
  - intros (x & Hx & Hnx). unfold intersect1d. rewrite (unique_unique R).
    apply (length_filter_lt _ _ x).
    + by apply elem_of_unique.
    + by rewrite elem_of_unique.
Qed.

End unique.

Section searchsorted.
Context {A : Type} (ltb : A → A → bool).

Lemma bisect_bound fuel arr key lo hi :
  lo ≤ hi →
  (bisect ltb fuel arr key lo hi).1 ≤ hi ∧ (bisect ltb fuel arr key lo hi).2 ≤ hi.
Proof.
  revert lo hi. induction fuel as [|fuel IH]; intros lo hi Hle; [simpl; lia|].
  rewrite bisect_S.
  destruct (decide (lo < hi)) as [Hlt|Hge]; [|simpl; lia].
  assert (lo + (hi - lo) / 2 < hi) as Hmid.
  { pose proof (Nat.div_lt (hi - lo) 2). lia. }
  destruct (arr !! (lo + (hi - lo) / 2)) as [mid_val|]; [|simpl; lia].
  destruct (ltb mid_val key).
  - apply IH. lia.
  - assert (lo ≤ lo + (hi - lo) / 2) as Hlo by lia.
    destruct (IH lo (lo + (hi - lo) / 2) Hlo). lia.
Qed.

Lemma binsearch_shape arr last_key lo hi keys :
  lo ≤ length arr → hi ≤ length arr →
  length (binsearch ltb arr last_key lo hi keys) = length keys ∧
  Forall (fun r => r ≤ length arr) (binsearch ltb arr last_key lo hi keys).
Proof.
  revert last_key lo hi.
  induction keys as [|key keys IH]; intros last_key lo hi Hlo Hhi; [done|].
  cbn [binsearch].
  destruct (ltb last_key key).
  - pose proof (bisect_bound (length arr - lo) arr key lo (length arr) Hlo) as [H1 H2].
    destruct (bisect ltb _ arr key lo (length arr)) as [lo' hi']. simpl in *.
    destruct (IH key lo' hi' H1 H2) as [IH1 IH2].
    split; [by rewrite IH1|by constructor].
  - set (hi0 := if decide (hi < length arr) then hi + 1 else length arr).
    assert (hi0 ≤ length arr) as Hhi0.
    { unfold hi0. destruct (decide (hi < length arr)); lia. }
    pose proof (bisect_bound (hi0 - 0) arr key 0 hi0 (Nat.le_0_l _)) as [H1 H2].
    destruct (bisect ltb _ arr key 0 hi0) as [lo' hi']. simpl in *.
    destruct (IH key lo' hi') as [IH1 IH2]; [lia..|].
    split; [by rewrite IH1|constructor; [lia|done]].
Qed.

(** [np.searchsorted] returns one insertion point per key, between 0 and
    [len(a)], whatever the order of [a]. *)
Lemma searchsorted_shape arr keys :
  length (searchsorted ltb arr keys) = length keys ∧
  Forall (fun r => r ≤ length arr) (searchsorted ltb arr keys).
Proof.
  destruct keys as [|key0 keys]; [by split|].
  unfold searchsorted. apply binsearch_shape; lia.
Qed.

End searchsorted.

End NpMore.

(** ** More on the label encoder *)

Module EncoderMore.
Import Py Np NpFacts NpMore Encoder EncoderSpec EncoderForms EncoderFacts.

Lemma missing_mask_spec (treat_unknown : bool) (cs : list string) (y : list label) :
  (if treat_unknown
   then zip_with orb (isnull <$> y) (negb <$> isin y (Some <$> cs))
   else isnull <$> y) = missing_mask treat_unknown cs y.
Proof.
  unfold missing_mask, isin. destruct treat_unknown.
  - induction y as [|v y IH]; csimpl; [done|]. by rewrite IH.
  - induction y as [|v y IH]; csimpl; [done|].
    by rewrite IH, orb_false_r.
Qed.

Lemma filled_spec (marker : string) (treat_unknown : bool) (cs : list string)
    (y : list label) :
  mapM id (mask_assign (missing_mask treat_unknown cs y) (Some marker) y)
  = Some (filled marker treat_unknown cs y).
Proof.
  apply mapM_Some. unfold mask_assign, missing_mask, filled.
  induction y as [|v y IH]; csimpl; constructor; [|done].
  destruct v as [s|]; simpl; [|done].
  by destruct (treat_unknown && _).
Qed.

(** [transform] written out for an encoder with a class list and a marker. *)
Lemma transform_fitted (self : NaNLabelEncoder) (cs : list string)
    (marker : string) (y : list label) :
  classes_ self = Some cs → missing_value_marker self = Some marker →
  transform self y =
    let treat := treat_unknown_as_missing self in
    let y' := filled marker treat cs y in
    if decide (length (intersect1d String.le (unique_str y') cs)
               < length (unique_str y')) then
      Raise (ValueError_new_labels (setdiff1d String.le (unique_str y') cs))
    else
      Ok (mask_assign (missing_mask treat cs y) NaN
            ((fun i : nat => Code (Z.of_nat i))
               <$> searchsorted String.ltb cs y')).
Proof.
  intros Hcs Hm. unfold transform, check_is_fitted. rewrite Hcs, Hm.
  rewrite missing_mask_spec, filled_spec. done.
Qed.

Lemma length_filled marker treat cs (y : list label) :
  length (filled marker treat cs y) = length y.
Proof. unfold filled. apply length_fmap. Qed.

Lemma length_missing_mask treat cs (y : list label) :
  length (missing_mask treat cs y) = length y.
Proof. unfold missing_mask. apply length_fmap. Qed.

Lemma elem_of_filled marker treat cs (y : list label) (s : string) :
  s ∈ filled marker treat cs y →
  s = marker ∨ (Some s ∈ y ∧ (treat = true → s ∈ cs)).
Proof.
  unfold filled. rewrite list_elem_of_fmap. intros ([t|] & -> & Hv); simpl; [|by left].
  destruct treat; simpl.
  - case_bool_decide as Hin; simpl; [|by left].
    right. split; [done|]. intros _.
    apply list_elem_of_fmap in Hin as (t' & [= ->] & Ht'). done.
  - right. split; [done|]. done.
Qed.

Lemma elem_of_filled_known marker cs (y : list label) (s : string) :
  Some s ∈ y → s ∈ filled marker false cs y.
Proof.
  intros Hs. unfold filled. apply list_elem_of_fmap. exists (Some s). by split.
Qed.

Lemma elem_of_mask_assign {A} (mask : list bool) (v : A) (a : list A) (x : A) :
  x ∈ mask_assign mask v a → x = v ∨ x ∈ a.
Proof.
  unfold mask_assign. revert a.
  induction mask as [|m mask IH]; intros [|y a]; csimpl;
    try (by intros ?%elem_of_nil).
  rewrite !elem_of_cons. intros [->|H].
  - destruct m; auto.
  - destruct (IH _ H); auto.
Qed.

(** The entries that [inverse_transform] validates are the codes of the
    array. *)
Lemma selected_codes_of (cs : list string) (arr : list code) :
  codes_of (mask_select (negb <$> (code_isnull <$> arr)) (fill_nan cs arr))
  = codes_of arr.
Proof.
  unfold fill_nan, mask_assign, codes_of.
  induction arr as [|[z|] arr IH]; csimpl; [done|..]; by rewrite IH.
Qed.

Lemma filled_codes_of (cs : list string) (arr : list code) :
  codes_of (fill_nan cs arr)
  = (fun c => match c with
              | NaN => (Z.of_nat (length cs) - 1)%Z
              | Code z => z
              end) <$> arr.
Proof.
  unfold fill_nan, mask_assign, codes_of.
  induction arr as [|[z|] arr IH]; csimpl; [done|..]; by rewrite IH.
Qed.

Lemma codes_in_range (n : nat) (arr : list code) :
  Forall (in_range n) (codes_of arr) →
  Forall (fun c => match c with Code z => in_range n z | NaN => True end) arr.
Proof.
  unfold codes_of.
  induction arr as [|[z|] arr IH]; csimpl; intros H; constructor; try done.
  - by apply Forall_cons in H as [? _].
  - apply IH. by apply Forall_cons in H as [_ ?].
  - by apply IH.
Qed.

(** [self.classes_[y]] on valid codes. *)
Lemma getitem_decodes (cs : list string) (marker : string) (arr : list code) :
  last cs = Some marker →
  Forall (in_range (length cs)) (codes_of arr) →
  getitem cs (codes_of (fill_nan cs arr)) = Ok (decode cs marker <$> arr).
Proof.
  intros Hlast Hall. apply codes_in_range in Hall.
  unfold getitem. rewrite filled_codes_of.
  erewrite (proj2 (mapM_Some _ _ (decode cs marker <$> arr))); [done|].
  apply Forall2_fmap, Forall_Forall2_diag.
  eapply Forall_impl; [exact Hall|]. intros [z|] Hz; simpl.
  - unfold in_range in Hz. unfold Py.index. rewrite decide_True by done. simpl.
    destruct (cs !! Z.to_nat z) as [x|] eqn:Hx; [done|].
    apply lookup_ge_None in Hx. lia.
  - rewrite last_lookup in Hlast.
    pose proof (lookup_lt_Some _ _ _ Hlast) as Hlt.
    unfold Py.index. rewrite decide_True by lia. simpl.
    replace (Z.to_nat (Z.of_nat (length cs) - 1)) with (pred (length cs)) by lia.
    done.
Qed.

(** The array [diff] of [inverse_transform]: the codes outside the valid
    range, ascending and without repeats. *)
Lemma diff_spec (cs : list string) (arr : list code) (z : Z) :
  z ∈ setdiff1d Z.le (codes_of arr) (arange (length cs)) ↔
  z ∈ codes_of arr ∧ ¬ in_range (length cs) z.
Proof. rewrite (elem_of_setdiff1d Z.le), elem_of_arange. done. Qed.

End EncoderMore.

(** ** Further properties of the label encoder *)

Section encoder_extras.
Import Py Np NpFacts NpMore Encoder EncoderSpec EncoderForms EncoderFacts
  EncoderMore.









End encoder_extras.

Section transform_extras.
Import Py Np NpFacts NpMore Encoder EncoderSpec EncoderForms EncoderFacts
  EncoderMore.

(** X5.  When [transform] returns, it returns one code per entry of [y], and
    the code is [np.nan] exactly at the entries that are null or, with
    [treat_unknown_as_missing], not in the class list; this holds whatever
    the order of the class list. *)
Theorem X5_transform_keeps_missingness (self : NaNLabelEncoder)
    (cs : list string) (marker : string) (y : list label) (codes : list code) :
  classes_ self = Some cs → missing_value_marker self = Some marker →
  transform self y = Ok codes →
  length codes = length y ∧
  ∀ i v, y !! i = Some v →
    (codes !! i = Some NaN ↔
     v = None ∨ (treat_unknown_as_missing self = true ∧ v ∉ Some <$> cs)).
Proof.
  intros Hcs Hm. rewrite (transform_fitted self cs marker y Hcs Hm). simpl.
  case_decide; [done|]. intros [= <-].
  pose proof (searchsorted_shape String.ltb cs
                (filled marker (treat_unknown_as_missing self) cs y)) as [Hlen _].
  rewrite length_filled in Hlen.
  set (ks := searchsorted String.ltb cs
               (filled marker (treat_unknown_as_missing self) cs y)) in *.
  split.
  - unfold mask_assign. rewrite length_zip_with, length_missing_mask, length_fmap. lia.
  - intros i v Hv.
    destruct (ks !! i) as [k|] eqn:Hk.
    2:{ apply lookup_ge_None in Hk. apply lookup_lt_Some in Hv.
        unfold label in *. lia. }
    rewrite (lookup_mask_assign _ _ _ i
               (isnull v || (treat_unknown_as_missing self
                             && negb (bool_decide (v ∈ Some <$> cs))))
               (Code (Z.of_nat k))).
    + destruct v as [s|]; simpl.
      * destruct (treat_unknown_as_missing self); simpl.
        -- case_bool_decide; simpl; split; try done.
           ++ intros [[=]|[_ ?]]. done.
           ++ intros _. by right.
        -- split; [done|]. intros [[=]|[[=] _]].
      * split; [|done]. intros _. by left.
    + unfold missing_mask, label in *. by rewrite list_lookup_fmap, Hv.
    + by rewrite list_lookup_fmap, Hk.
Qed.

Lemma X5_transform_keeps_missingness_witness :
  let self := {| missing_value_marker := Some default_marker;
                 labels := Some ["a"; "b"];
                 treat_unknown_as_missing := true;
                 classes_ := Some ["a"; "b"; default_marker] |} in
  let y := [Some "b"; None; Some "zz"] in
  let codes := [Code 1; NaN; NaN] in
  transform self y = Ok codes ∧
  length codes = length y ∧
  ∀ i v, y !! i = Some v →
    (codes !! i = Some NaN ↔
     v = None ∨ (treat_unknown_as_missing self = true ∧
                 v ∉ Some <$> ["a"; "b"; default_marker])).
Proof.
  intros self y codes.
  assert (transform self y = Ok codes) as H by reflexivity.
  split; [exact H|].
  exact (X5_transform_keeps_missingness self _ default_marker y codes
           eq_refl eq_refl H).
Defined.

(** X6.  On an encoder that [fit] has returned, [transform] returns codes
    exactly when [treat_unknown_as_missing] is set or every label of [y] is
    in the class list. *)
Theorem X6_transform_succeeds_iff (self0 self : NaNLabelEncoder)
    (y0 y : list label) (cs : list string) :
  fit self0 y0 = Ok self → classes_ self = Some cs →
  ((∃ codes, transform self y = Ok codes) ↔
   treat_unknown_as_missing self = true ∨ ∀ s, Some s ∈ y → s ∈ cs).
Proof.
  intros Hfit Hcs.
  apply fit_Ok in Hfit as (marker & cls & _ & _ & -> & _ & _).
  simpl in Hcs. injection Hcs as <-.
  rewrite (transform_fitted _ (cls ++ [marker]) marker y) by reflexivity. simpl.
  assert (marker ∈ cls ++ [marker]) as Hmc.
  { apply elem_of_app. right. by apply list_elem_of_singleton. }
  unfold unique_str. case_decide as Hlt.
  - apply (intersect1d_shorter String.le) in Hlt as (x & Hx & Hnx).
    split; [by intros [? [=]]|]. intros Hok. exfalso. apply Hnx.
    apply elem_of_filled in Hx as [->|[Hy Hk]]; [done|].
    destruct Hok as [Ht|Hall]; [by apply Hk|by apply Hall].
  - split; [|by eexists]. intros _.
    destruct (treat_unknown_as_missing self0); [by left|]. right.
    intros s Hs. destruct (decide (s ∈ cls ++ [marker])) as [|Hns]; [done|].
    destruct Hlt. apply (intersect1d_shorter String.le).
    exists s. split; [|done]. by apply elem_of_filled_known.
Qed.

Lemma X6_transform_succeeds_iff_witness :
  let self0 := __init__ (Some default_marker) None true in
  ∃ self cs,
    fit self0 [Some "a"; Some "b"] = Ok self ∧ classes_ self = Some cs ∧
    ∃ codes, transform self [Some "zz"; None; Some "a"] = Ok codes.
Proof.
  intros self0. eexists _, _. split; [reflexivity|]. split; [reflexivity|].
  apply (proj2 (X6_transform_succeeds_iff self0 _ [Some "a"; Some "b"]
                  [Some "zz"; None; Some "a"] _ eq_refl eq_refl)).
  left. reflexivity.
Defined.

(** X7.  Without [treat_unknown_as_missing], [transform] on a fitted encoder
    and data with a label outside the class list raises the "new labels"
    [ValueError], and the error carries exactly the unseen labels, ascending
    and without repeats. *)
Theorem X7_transform_names_unseen_labels (self0 self : NaNLabelEncoder)
    (y0 y : list label) (cs : list string) (s0 : string) :
  fit self0 y0 = Ok self → classes_ self = Some cs →
  treat_unknown_as_missing self = false →
  Some s0 ∈ y → s0 ∉ cs →
  ∃ diff,
    transform self y = Raise (ValueError_new_labels diff) ∧
    StronglySorted StrOrd.lt diff ∧
    ∀ s, s ∈ diff ↔ Some s ∈ y ∧ s ∉ cs.
Proof.
  intros Hfit Hcs Ht Hs0 Hn0.
  apply fit_Ok in Hfit as (marker & cls & _ & _ & -> & _ & _).
  simpl in Hcs, Ht. injection Hcs as <-.
  rewrite (transform_fitted _ (cls ++ [marker]) marker y) by reflexivity. simpl.
  assert (marker ∈ cls ++ [marker]) as Hmc.
  { apply elem_of_app. right. by apply list_elem_of_singleton. }
  rewrite Ht. unfold unique_str. rewrite decide_True.
  - eexists. split; [reflexivity|]. split.
    + apply strict_sorted_lt, setdiff1d_sorted; apply _.
    + intros s. rewrite (elem_of_setdiff1d String.le), (elem_of_unique String.le).
      split.
      * intros [Hs Hns]. split; [|done].
        apply elem_of_filled in Hs as [->|[? _]]; done.
      * intros [Hs Hns]. split; [|done]. by apply elem_of_filled_known.
  - apply (intersect1d_shorter String.le). exists s0.
    split; [|done]. by apply elem_of_filled_known.
Qed.

Lemma X7_transform_names_unseen_labels_witness :
  let self0 := __init__ (Some default_marker) None false in
  let y := [Some "zz"; Some "a"; None; Some "c"; Some "zz"] in
  ∃ self cs,
    fit self0 [Some "a"; Some "b"] = Ok self ∧ classes_ self = Some cs ∧
    Some "zz" ∈ y ∧ ("zz" ∉ cs) ∧
    transform self y = Raise (ValueError_new_labels ["c"; "zz"]) ∧
    ∃ diff,
      transform self y = Raise (ValueError_new_labels diff) ∧
      StronglySorted StrOrd.lt diff ∧
      ∀ s, s ∈ diff ↔ Some s ∈ y ∧ s ∉ cs.
Proof.
  intros self0 y. eexists _, _.
  assert (Some "zz" ∈ y) as H1.
  { refine (bool_decide_unpack _ _). vm_compute. exact I. }
  assert ("zz" ∉ ["a"; "b"; default_marker]) as H2.
  { refine (bool_decide_unpack _ _). vm_compute. exact I. }
  split; [reflexivity|]. split; [reflexivity|].
  split; [exact H1|]. split; [exact H2|]. split; [reflexivity|].
  exact (X7_transform_names_unseen_labels self0 _ [Some "a"; Some "b"] y _ "zz"
           eq_refl eq_refl eq_refl H1 H2).
Defined.

(** X8.  Every code that [transform] returns is [np.nan] or an integer
    between 0 and [len(classes_)], both included: never negative, and at
    most one past the last valid index. *)
Theorem X8_transform_code_bounds (self : NaNLabelEncoder) (cs : list string)
    (marker : string) (y : list label) (codes : list code) :
  classes_ self = Some cs → missing_value_marker self = Some marker →
  transform self y = Ok codes →
  Forall (fun c => c = NaN ∨
                   ∃ k : nat, c = Code (Z.of_nat k) ∧ k ≤ length cs) codes.
Proof.
  intros Hcs Hm. rewrite (transform_fitted self cs marker y Hcs Hm). simpl.
  case_decide; [done|]. intros [= <-].
  pose proof (searchsorted_shape String.ltb cs
                (filled marker (treat_unknown_as_missing self) cs y)) as [_ Hle].
  apply Forall_forall. intros c Hc.
  apply elem_of_mask_assign in Hc as [->|Hc]; [by left|]. right.
  apply list_elem_of_fmap in Hc as (k & -> & Hk).
  exists k. split; [done|]. rewrite Forall_forall in Hle. by apply Hle.
Qed.

Lemma X8_transform_code_bounds_witness :
  let self := {| missing_value_marker := Some default_marker;
                 labels := Some ["a"];
                 treat_unknown_as_missing := false;
                 classes_ := Some ["a"; default_marker] |} in
  let codes := [Code 2; NaN] in
  transform self [Some "a"; None] = Ok codes ∧
  Forall (fun c => c = NaN ∨
                   ∃ k : nat, c = Code (Z.of_nat k)
                              ∧ k ≤ length ["a"; default_marker]) codes.
Proof.
  intros self codes.
  assert (transform self [Some "a"; None] = Ok codes) as H by reflexivity.
  split; [exact H|].
  exact (X8_transform_code_bounds self _ default_marker _ codes eq_refl eq_refl H).
Defined.

End transform_extras.

Section inverse_transform_extras.
Import Py Np NpFacts NpMore Encoder EncoderSpec EncoderForms EncoderFacts
  EncoderMore.

(** X9.  On an array whose codes all lie in the valid range,
    [inverse_transform] returns, entry by entry, the class at the code, and
    the last class (the marker) for [np.nan]; the class list need not be
    ascending. *)
Theorem X9_inverse_transform_decodes (self : NaNLabelEncoder)
    (cs : list string) (marker : string) (σ : store) (y : nat)
    (arr : list code) :
  classes_ self = Some cs → last cs = Some marker →
  σ !! y = Some arr →
  Forall (in_range (length cs)) (codes_of arr) →
  (inverse_transform self y σ).1 = Ok (decode cs marker <$> arr).
Proof.
  intros Hcs Hlast Hy Hall.
  rewrite (inverse_transform_fitted self cs y σ arr Hcs Hy). simpl.
  rewrite selected_codes_of.
  rewrite (setdiff1d_subseteq Z.le).
  - simpl. by apply getitem_decodes.
  - intros z Hz. apply elem_of_arange.
    rewrite Forall_forall in Hall. by apply Hall.
Qed.

Lemma X9_inverse_transform_decodes_witness :
  let self := {| missing_value_marker := Some default_marker;
                 labels := Some ["a"; "b"];
                 treat_unknown_as_missing := false;
                 classes_ := Some ["a"; "b"; default_marker] |} in
  let arr := [Code 1; NaN; Code 0; Code 2; Code 1] in
  Forall (in_range 3) (codes_of arr) ∧
  (inverse_transform self 0 [arr]).1
  = Ok ["b"; default_marker; "a"; default_marker; "b"].
Proof.
  intros self arr.
  assert (Forall (in_range 3) (codes_of arr)) as H.
  { refine (bool_decide_unpack _ _). vm_compute. exact I. }
  split; [exact H|].
  exact (X9_inverse_transform_decodes self ["a"; "b"; default_marker]
           default_marker [arr] 0 arr eq_refl eq_refl eq_refl H).
Defined.

(** X10.  A code outside the valid range makes [inverse_transform] raise a
    [ValueError].  When all offending codes are one value, the error names
    it; when two different values offend, [if diff:] itself raises the
    "truth value of an array" error, which names no code. *)
Theorem X10_inverse_transform_rejects (self : NaNLabelEncoder)
    (cs : list string) (σ : store) (y : nat) (arr : list code) (z : Z) :
  classes_ self = Some cs → cs ≠ [] →
  σ !! y = Some arr →
  z ∈ codes_of arr → ¬ in_range (length cs) z →
  (Forall (fun z' => in_range (length cs) z' ∨ z' = z) (codes_of arr) →
   (inverse_transform self y σ).1 = Raise (ValueError_new_codes [z])) ∧
  (∀ z', z' ∈ codes_of arr → ¬ in_range (length cs) z' → z' ≠ z →
   ∃ msg, (inverse_transform self y σ).1 = Raise (ValueError msg)).
Proof.
  intros Hcs Hne Hy Hz Hout.
  rewrite (inverse_transform_fitted self cs y σ arr Hcs Hy). simpl.
  rewrite selected_codes_of.
  pose proof (diff_spec cs arr) as Hdiff.
  pose proof (setdiff1d_sorted Z.le (codes_of arr) (arange (length cs))) as Hs.
  set (diff := setdiff1d Z.le (codes_of arr) (arange (length cs))) in *.
  split.
  - intros Hall.
    assert (diff = [z]) as ->.
    { apply (strict_sorted_ext Z.le); [done|repeat constructor|].
      intros x. rewrite Hdiff, list_elem_of_singleton. split.
      - intros [Hx Hnx]. rewrite Forall_forall in Hall.
        destruct (Hall x Hx); done.
      - intros ->. done. }
    simpl. assert (z ≠ 0%Z) as Hz0.
    { intros ->. apply Hout. unfold in_range. destruct cs; [done|]. simpl. lia. }
    apply Z.eqb_neq in Hz0. by rewrite Hz0.
  - intros z' Hz' Hout' Hne'.
    assert (z ∈ diff) as H1 by (by apply Hdiff).
    assert (z' ∈ diff) as H2 by (by apply Hdiff).
    destruct diff as [|a [|b diff]].
    + by apply elem_of_nil in H1.
    + apply list_elem_of_singleton in H1, H2. congruence.
    + simpl. by eexists.
Qed.

Lemma X10_inverse_transform_rejects_witness :
  let self := {| missing_value_marker := Some default_marker;
                 labels := Some ["a"; "b"];
                 treat_unknown_as_missing := false;
                 classes_ := Some ["a"; "b"; default_marker] |} in
  let one := [Code 0; Code 7; NaN; Code 7] in
  let two := [Code 0; Code 7; Code (-1)] in
  (7%Z ∈ codes_of one ∧ ¬ in_range 3 7 ∧
   Forall (fun z' => in_range 3 z' ∨ z' = 7%Z) (codes_of one) ∧
   (inverse_transform self 0 [one]).1 = Raise (ValueError_new_codes [7%Z])) ∧
  ((-1)%Z ∈ codes_of two ∧ ¬ in_range 3 (-1) ∧
   ∃ msg, (inverse_transform self 0 [two]).1 = Raise (ValueError msg)).
Proof.
  intros self one two.
  assert (7%Z ∈ codes_of one) as H1.
  { refine (bool_decide_unpack _ _). vm_compute. exact I. }
  assert (7%Z ∈ codes_of two) as H1'.
  { refine (bool_decide_unpack _ _). vm_compute. exact I. }
  assert (¬ in_range 3 7) as H2.
  { refine (bool_decide_unpack _ _). vm_compute. exact I. }
  assert (Forall (fun z' => in_range 3 z' ∨ z' = 7%Z) (codes_of one)) as H3.
  { refine (bool_decide_unpack _ _). vm_compute. exact I. }
  assert ((-1)%Z ∈ codes_of two) as H4.
  { refine (bool_decide_unpack _ _). vm_compute. exact I. }
  assert (¬ in_range 3 (-1)) as H5.
  { refine (bool_decide_unpack _ _). vm_compute. exact I. }
  assert (["a"; "b"; default_marker] ≠ []) as H6 by discriminate.
  split.
  - split_and!; [exact H1|exact H2|exact H3|].
    exact (proj1 (X10_inverse_transform_rejects self _ [one] 0 one 7
                    eq_refl H6 eq_refl H1 H2) H3).
  - split_and!; [exact H4|exact H5|].
    refine (proj2 (X10_inverse_transform_rejects self _ [two] 0 two 7
                     eq_refl H6 eq_refl H1' H2) (-1)%Z H4 H5 _).
    discriminate.
Defined.

(** X11.  Decoding and encoding again: on an encoder whose class list is
    ascending and ends with the marker, [transform] of what
    [inverse_transform] returned for valid codes gives the codes back, with
    [len(classes_) - 1] in place of every [np.nan]. *)
Theorem X11_transform_inverse_transform (self : NaNLabelEncoder)
    (cs : list string) (marker : string) (σ : store) (y : nat)
    (arr : list code) :
  classes_ self = Some cs → missing_value_marker self = Some marker →
  last cs = Some marker → StronglySorted StrOrd.lt cs →
  σ !! y = Some arr →
  Forall (in_range (length cs)) (codes_of arr) →
  ∃ r,
    (inverse_transform self y σ).1 = Ok r ∧
    transform self (Some <$> r)
    = Ok ((fun c => match c with
                    | NaN => Code (Z.of_nat (length cs) - 1)
                    | Code z => Code z
                    end) <$> arr).
Proof.
  intros Hcs Hm Hlast Hs Hy Hall.
  exists (decode cs marker <$> arr). split.
  { by apply (X9_inverse_transform_decodes self cs marker σ y arr). }
  assert (marker ∈ cs) as Hmc.
  { rewrite last_lookup in Hlast. by eapply list_elem_of_lookup_2. }
  rewrite (transform_sorted self cs marker _ Hcs Hm Hmc Hs).
  - f_equal. rewrite <-!list_fmap_compose.
    apply codes_in_range in Hall.
    apply Forall_fmap_ext_1. eapply Forall_impl; [exact Hall|].
    intros [z|] Hz; simpl.
    + unfold in_range in Hz.
      destruct (cs !! Z.to_nat z) as [x|] eqn:Hx.
      * simpl. rewrite (rank_lookup String.ltb StrOrdFacts.ltb_irrefl
                          StrOrdFacts.ltb_trans cs _ x Hs Hx).
        f_equal. lia.
      * apply lookup_ge_None in Hx. lia.
    + rewrite last_lookup in Hlast.
      rewrite (rank_lookup String.ltb StrOrdFacts.ltb_irrefl
                 StrOrdFacts.ltb_trans cs _ marker Hs Hlast).
      pose proof (lookup_lt_Some _ _ _ Hlast). f_equal. lia.
  - apply Forall_fmap, Forall_fmap. apply codes_in_range in Hall.
    eapply Forall_impl; [exact Hall|]. intros [z|] Hz s [= <-]; simpl; [|done].
    unfold in_range in Hz.
    destruct (cs !! Z.to_nat z) as [x|] eqn:Hx; simpl.
    + by eapply list_elem_of_lookup_2.
    + done.
Qed.

Lemma X11_transform_inverse_transform_witness :
  let self := {| missing_value_marker := Some "~NaN~";
                 labels := Some ["a"; "b"];
                 treat_unknown_as_missing := false;
                 classes_ := Some ["a"; "b"; "~NaN~"] |} in
  let arr := [Code 1; NaN; Code 0; Code 2] in
  StronglySorted StrOrd.lt ["a"; "b"; "~NaN~"] ∧
  Forall (in_range 3) (codes_of arr) ∧
  ∃ r,
    (inverse_transform self 0 [arr]).1 = Ok r ∧
    transform self (Some <$> r) = Ok [Code 1; Code 2; Code 0; Code 2].
Proof.
  intros self arr.
  assert (StronglySorted StrOrd.lt ["a"; "b"; "~NaN~"]) as H1.
  { refine (bool_decide_unpack _ _). vm_compute. exact I. }
  assert (Forall (in_range 3) (codes_of arr)) as H2.
  { refine (bool_decide_unpack _ _). vm_compute. exact I. }
  split; [exact H1|]. split; [exact H2|].
  exact (X11_transform_inverse_transform self ["a"; "b"; "~NaN~"] "~NaN~"
           [arr] 0 arr eq_refl eq_refl eq_refl H1 eq_refl H2).
Defined.

End inverse_transform_extras.

(** ** The loops of the injectors *)

Module InjectorFacts.
Import Py MissingData MissingDataSpec InjectorForms.

Lemma bind_unfold {A B} (m : M state A) (k : A → M state B) (σ : state) :
  (m ≫= k) σ = match m σ with
               | (Ok a, σ') => k a σ'
               | (Raise e, σ') => (Raise e, σ')
               end.
Proof. done. Qed.

Lemma for_range_app (r1 r2 : list nat) (body : nat → M state unit) (σ : state) :
  for_range (r1 ++ r2) body σ =
    match for_range r1 body σ with
    | (Ok _, σ') => for_range r2 body σ'
    | (Raise e, σ') => (Raise e, σ')
    end.
Proof.
  revert σ. induction r1 as [|i r1 IH]; intros σ; simpl; [done|].
  unfold mbind, M_bind. destruct (body i σ) as [[[]|e] σ']; [|done]. apply IH.
Qed.

Lemma nmar_rows_0 (X : matrix) fs : nmar_rows X fs 0 = rows X.
Proof.
  unfold nmar_rows. apply list_eq. intros r. rewrite list_lookup_imap.
  destruct (rows X !! r) as [row|]; [|done]. simpl. f_equal.
  apply list_eq. intros j. rewrite list_lookup_imap. by destruct (row !! j).
Qed.

Lemma length_nmar_rows (X : matrix) fs k : length (nmar_rows X fs k) = shape0 X.
Proof. unfold nmar_rows. by rewrite length_imap. Qed.

Lemma nmar_rows_skip (X : matrix) fs k :
  (∀ f, fs !! k ≠ Some (Some f)) → nmar_rows X fs (S k) = nmar_rows X fs k.
Proof.
  intros Hk. unfold nmar_rows. apply imap_ext. intros r row _.
  apply imap_ext. intros j x _.
  destruct (decide (j = k)) as [->|].
  - rewrite decide_True, decide_False by lia. unfold nmar_cell.
    destruct (fs !! k) as [[f|]|]; [by destruct (Hk f)|done|done].
  - destruct (decide (j < k)).
    + by rewrite decide_True by lia.
    + by rewrite decide_False by lia.
Qed.

Lemma nmar_rows_set (X : matrix) fs k f :
  fs !! k = Some (Some f) → length (f (column k X)) = shape0 X →
  zip_with (fun r x => <[k := x]> r) (nmar_rows X fs k) (f (column k X))
  = nmar_rows X fs (S k).
Proof.
  intros Hk Hlen. apply list_eq. intros r.
  rewrite lookup_zip_with. unfold nmar_rows. rewrite !list_lookup_imap.
  destruct (rows X !! r) as [row|] eqn:Hrow; simpl; [|done].
  destruct (f (column k X) !! r) as [c|] eqn:Hc; simpl.
  - f_equal. apply list_eq. intros j.
    destruct (decide (j = k)) as [->|Hne].
    + rewrite list_lookup_imap.
      destruct (row !! k) as [x|] eqn:Hx; simpl.
      * rewrite list_lookup_insert_eq.
        2:{ rewrite length_imap. by eapply lookup_lt_Some. }
        rewrite decide_True by lia. unfold nmar_cell. by rewrite Hk, Hc.
      * apply lookup_ge_None. rewrite length_insert, length_imap.
        by apply lookup_ge_None.
    + rewrite list_lookup_insert_ne by done. rewrite !list_lookup_imap.
      destruct (row !! j) as [x|]; simpl; [|done].
      destruct (decide (j < k)).
      * by rewrite decide_True by lia.
      * by rewrite decide_False by lia.
  - apply lookup_ge_None in Hc. apply lookup_lt_Some in Hrow.
    unfold shape0 in Hlen. lia.
Qed.


Lemma nmar_calls_S (X : matrix) fs k :
  nmar_calls X fs (S k) =
    nmar_calls X fs k ++ match fs !! k with
                         | Some (Some _) => [Call k (column k X)]
                         | _ => []
                         end.
Proof.
  unfold nmar_calls. rewrite seq_S, fmap_app, join_app. simpl.
  by rewrite app_nil_r.
Qed.

(** The state after the first [k] rounds of the loop of
    [get_nmar_incomplete_data]. *)
Lemma nmar_loop (σ : state) (X l : nat) (Xv : matrix)
    (fs : list (option callable)) (k : nat) :
  heap σ !! X = Some (Arr2 Xv) →
  heap σ !! l = Some (Arr2 Xv) →
  X ≠ l →
  (∀ i f, i < k → fs !! i = Some (Some f) →
          length (f (column i Xv)) = shape0 Xv) →
  for_range (seq 0 k) (nmar_body X l fs) σ =
    (Ok tt,
     {| heap := <[l := Arr2 {| ncols := ncols Xv; rows := nmar_rows Xv fs k |}]>
                  (heap σ);
        np_random := np_random σ;
        trace := trace σ ++ nmar_calls Xv fs k |}).
Proof.
  intros HX Hl Hne. induction k as [|k IH]; intros Hfs.
  - simpl. unfold mret, M_ret. f_equal. destruct σ as [h g t]. simpl in *.
    rewrite nmar_rows_0. unfold nmar_calls. simpl. rewrite app_nil_r. f_equal.
    symmetry. apply list_insert_id. rewrite Hl. by destruct Xv.
  - rewrite seq_S, for_range_app, IH by (intros i f ?; apply Hfs; lia). simpl.
    unfold mbind, M_bind, mret, M_ret, nmar_body. rewrite nmar_calls_S.
    destruct (fs !! k) as [[f|]|] eqn:Hk.
    + rewrite bind_unfold. unfold read_matrix at 1. simpl.
      rewrite list_lookup_insert_ne by done. rewrite HX.
      rewrite bind_unfold. unfold call. simpl.
      unfold set_column. rewrite bind_unfold. unfold read_matrix. simpl.
      rewrite list_lookup_insert_eq by (by eapply lookup_lt_Some).
      rewrite bind_unfold. unfold lift, broadcast, shape0. simpl.
      rewrite decide_True by (rewrite length_nmar_rows; apply Hfs; [lia|done]).
      unfold write. simpl. rewrite list_insert_insert_eq.
      rewrite (nmar_rows_set Xv fs k f Hk (Hfs k f (Nat.lt_succ_diag_r k) Hk)).
      by rewrite (assoc_L (++)).
    + rewrite nmar_rows_skip by (intros f; congruence). by rewrite app_nil_r.
    + rewrite nmar_rows_skip by (intros f; congruence). by rewrite app_nil_r.
Qed.

Lemma nmar_loop_body (X l : nat) (fs : list (option callable)) (range : list nat) :
  for_range range (fun i =>
      match fs !! i with
      | Some (Some f) =>
          Xv ← read_matrix X;
          col ← call i f (column i Xv);
          set_column l i col
      | _ => mret tt
      end)
  = for_range range (nmar_body X l fs).
Proof. done. Qed.

(** [get_nmar_incomplete_data] written out, when every callable returns as
    many entries as the matrix has rows. *)
Lemma get_nmar_Ok (σ : state) (X : nat) (Xv : matrix)
    (fs : list (option callable)) (random_state : Z) :
  heap σ !! X = Some (Arr2 Xv) →
  length fs = shape1 Xv →
  returns_columns Xv fs →
  get_nmar_incomplete_data X fs random_state σ =
    (Ok (length (heap σ)),
     {| heap := heap σ ++ [Arr2 {| ncols := ncols Xv;
                                   rows := nmar_rows Xv fs (shape1 Xv) |}];
        np_random := {| seed := random_state; drawn := 0 |};
        trace := trace σ ++ nmar_calls Xv fs (shape1 Xv) |}).
Proof.
  intros HX Hlen Hfs. unfold get_nmar_incomplete_data.
  rewrite bind_unfold. unfold np_random_seed at 1.
  rewrite bind_unfold. unfold read_matrix at 1. simpl. rewrite HX.
  rewrite decide_False by (intros ?; done).
  rewrite bind_unfold. unfold alloc at 1. simpl.
  rewrite bind_unfold.
  pose proof (lookup_lt_Some _ _ _ HX) as Hlt.
  rewrite nmar_loop_body.
  rewrite (nmar_loop _ X (length (heap σ)) Xv fs (shape1 Xv)); simpl.
  - unfold mret, M_ret. f_equal. f_equal.
    rewrite insert_app_r_alt by done. by rewrite Nat.sub_diag.
  - by rewrite lookup_app_l.
  - by apply list_lookup_middle.
  - lia.
  - intros i f _. apply Hfs.
Qed.

(** The first callable that returns an array which does not fit a column
    stops the loop. *)
Lemma get_nmar_Raise (σ : state) (X : nat) (Xv : matrix)
    (fs : list (option callable)) (random_state : Z) (k : nat) (f : callable) :
  heap σ !! X = Some (Arr2 Xv) →
  length fs = shape1 Xv →
  fs !! k = Some (Some f) →
  (∀ i g, i < k → fs !! i = Some (Some g) →
          length (g (column i Xv)) = shape0 Xv) →
  length (f (column k Xv)) ≠ shape0 Xv →
  length (f (column k Xv)) ≠ 1 →
  get_nmar_incomplete_data X fs random_state σ =
    (Raise (ValueError "could not broadcast input array"),
     {| heap := heap σ ++ [Arr2 {| ncols := ncols Xv;
                                   rows := nmar_rows Xv fs k |}];
        np_random := {| seed := random_state; drawn := 0 |};
        trace := trace σ ++ nmar_calls Xv fs (S k) |}).
Proof.
  intros HX Hlen Hk Hfs Hbad Hbad1. unfold get_nmar_incomplete_data.
  rewrite bind_unfold. unfold np_random_seed at 1.
  rewrite bind_unfold. unfold read_matrix at 1. simpl. rewrite HX.
  rewrite decide_False by (intros ?; done).
  rewrite bind_unfold. unfold alloc at 1. simpl.
  rewrite bind_unfold.
  pose proof (lookup_lt_Some _ _ _ HX) as Hlt.
  pose proof (lookup_lt_Some _ _ _ Hk) as Hklt.
  rewrite nmar_loop_body.
  replace (shape1 Xv) with (k + S (shape1 Xv - S k)) by lia.
  rewrite seq_app, for_range_app.
  rewrite (nmar_loop _ X (length (heap σ)) Xv fs k); simpl.
  - rewrite bind_unfold. unfold nmar_body at 1. rewrite Hk.
    rewrite bind_unfold. unfold read_matrix at 1. simpl.
    rewrite list_lookup_insert_ne by lia.
    rewrite lookup_app_l by done. rewrite HX.
    rewrite bind_unfold. unfold call. simpl.
    unfold set_column. rewrite bind_unfold. unfold read_matrix. simpl.
    rewrite list_lookup_insert_eq by (rewrite length_app; simpl; lia).
    rewrite bind_unfold. unfold lift, broadcast, shape0. simpl.
    rewrite length_nmar_rows. rewrite decide_False by done.
    rewrite nmar_calls_S, Hk, (assoc_L (++)).
    rewrite insert_app_r_alt by done. rewrite Nat.sub_diag. simpl.
    destruct (f (column k Xv)) as [|c [|c' col]]; simpl in *; done.
  - by rewrite lookup_app_l.
  - by apply list_lookup_middle.
  - lia.
  - done.
Qed.

Lemma nmar_rows_well_formed (X : matrix) fs k :
  well_formed X →
  well_formed {| ncols := ncols X; rows := nmar_rows X fs k |}.
Proof.
  unfold well_formed, nmar_rows. simpl. rewrite !Forall_lookup.
  intros Hwf r row. rewrite list_lookup_imap.
  destruct (rows X !! r) as [row'|] eqn:Hr; [|done]. simpl. intros [= <-].
  rewrite length_imap. by eapply Hwf.
Qed.

Lemma column_nmar_rows (X : matrix) fs (i : nat) :
  well_formed X → returns_columns X fs → i < shape1 X →
  column i {| ncols := ncols X; rows := nmar_rows X fs (shape1 X) |}
  = nmar_column X fs i.
Proof.
  intros Hwf Hfs Hi. unfold column at 1. simpl. unfold nmar_rows.
  apply list_eq. intros r. rewrite list_lookup_fmap, list_lookup_imap.
  unfold well_formed in Hwf. rewrite Forall_lookup in Hwf.
  destruct (rows X !! r) as [row|] eqn:Hr; simpl.
  - rewrite list_lookup_imap.
    destruct (row !! i) as [x|] eqn:Hx; simpl.
    + rewrite decide_True by done. unfold nmar_cell, nmar_column.
      destruct (fs !! i) as [[f|]|] eqn:Hf.
      * destruct (f (column i X) !! r) as [c|] eqn:Hc; [done|].
        apply lookup_ge_None in Hc. rewrite (Hfs i f Hf) in Hc.
        apply lookup_lt_Some in Hr. unfold shape0 in Hc. lia.
      * unfold column. by rewrite list_lookup_fmap, Hr; simpl; rewrite Hx.
      * unfold column. by rewrite list_lookup_fmap, Hr; simpl; rewrite Hx.
    + apply lookup_ge_None in Hx. rewrite (Hwf r row Hr) in Hx.
      unfold shape1 in Hi. lia.
  - symmetry. apply lookup_ge_None. apply lookup_ge_None in Hr.
    unfold nmar_column. destruct (fs !! i) as [[f|]|] eqn:Hf.
    + rewrite (Hfs i f Hf). done.
    + unfold column. by rewrite length_fmap.
    + unfold column. by rewrite length_fmap.
Qed.


Lemma mar_rows_0 (X : matrix) (f : callable) :
  mar_rows X f 0 = rows (full_like_nan X).
Proof.
  unfold mar_rows, full_like_nan. simpl. apply list_eq. intros r.
  rewrite list_lookup_imap, list_lookup_fmap. by destruct (rows X !! r).
Qed.

Lemma mar_rows_all (X : matrix) (f : callable) :
  mar_rows X f (shape0 X) = f <$> rows X.
Proof.
  unfold mar_rows. apply list_eq. intros r.
  rewrite list_lookup_imap, list_lookup_fmap.
  destruct (rows X !! r) as [row|] eqn:Hr; [|done]. simpl.
  apply lookup_lt_Some in Hr. by rewrite decide_True.
Qed.

Lemma mar_rows_set (X : matrix) (f : callable) (k : nat) (row : list float) :
  rows X !! k = Some row →
  <[k := f row]> (mar_rows X f k) = mar_rows X f (S k).
Proof.
  intros Hk. unfold mar_rows. apply list_eq. intros r.
  destruct (decide (r = k)) as [->|Hne].
  - rewrite list_lookup_insert_eq.
    2:{ rewrite length_imap. by eapply lookup_lt_Some. }
    rewrite list_lookup_imap, Hk. simpl. by rewrite decide_True by lia.
  - rewrite list_lookup_insert_ne by done. rewrite !list_lookup_imap.
    destruct (rows X !! r) as [row'|]; [|done]. simpl.
    destruct (decide (r < k)).
    + by rewrite decide_True by lia.
    + by rewrite decide_False by lia.
Qed.

(** The state after the first [k] rounds of the loop of
    [get_mar_incomplete_data]. *)
Lemma mar_loop (σ : state) (X l : nat) (Xv : matrix) (f : callable) (k : nat) :
  heap σ !! X = Some (Arr2 Xv) →
  heap σ !! l = Some (Arr2 (full_like_nan Xv)) →
  X ≠ l →
  returns_rows Xv f →
  k ≤ shape0 Xv →
  for_range (seq 0 k) (mar_body X l f) σ =
    (Ok tt,
     {| heap := <[l := Arr2 {| ncols := ncols Xv; rows := mar_rows Xv f k |}]>
                  (heap σ);
        np_random := np_random σ;
        trace := trace σ ++ imap Call (firstn k (rows Xv)) |}).
Proof.
  intros HX Hl Hne Hf. induction k as [|k IH]; intros Hk.
  - simpl. unfold mret, M_ret. f_equal. destruct σ as [h g t]. simpl in *.
    rewrite mar_rows_0, app_nil_r. f_equal.
    symmetry. apply list_insert_id. by rewrite Hl.
  - rewrite seq_S, for_range_app, IH by lia. simpl.
    destruct (rows Xv !! k) as [row|] eqn:Hrow.
    2:{ apply lookup_ge_None in Hrow. unfold shape0 in Hk. lia. }
    rewrite bind_unfold. unfold mar_body.
    rewrite bind_unfold. unfold read_matrix at 1. simpl.
    rewrite list_lookup_insert_ne by done. rewrite HX.
    rewrite bind_unfold. unfold call. simpl. rewrite Hrow. simpl.
    unfold set_row. rewrite bind_unfold. unfold read_matrix. simpl.
    rewrite list_lookup_insert_eq by (by eapply lookup_lt_Some).
    rewrite bind_unfold. unfold lift, broadcast, shape1. simpl.
    unfold returns_rows in Hf. rewrite Forall_lookup in Hf.
    rewrite decide_True by (by apply (Hf k row Hrow)).
    unfold write, mret, M_ret. simpl. rewrite list_insert_insert_eq.
    rewrite (mar_rows_set Xv f k row Hrow).
    rewrite (take_S_r _ _ _ Hrow), imap_app. simpl.
    rewrite length_take_le by (unfold shape0 in Hk; lia).
    rewrite Nat.add_0_r. by rewrite (assoc_L (++)).
Qed.

(** [get_mar_incomplete_data] written out, when the callable returns rows
    of the width of the matrix. *)
Lemma get_mar_Ok (σ : state) (X : nat) (Xv : matrix) (f : callable)
    (random_state : Z) :
  heap σ !! X = Some (Arr2 Xv) →
  returns_rows Xv f →
  get_mar_incomplete_data X f random_state σ =
    (Ok (length (heap σ)),
     {| heap := heap σ ++ [Arr2 {| ncols := ncols Xv; rows := f <$> rows Xv |}];
        np_random := {| seed := random_state; drawn := 0 |};
        trace := trace σ ++ imap Call (rows Xv) |}).
Proof.
  intros HX Hf. unfold get_mar_incomplete_data.
  rewrite bind_unfold. unfold np_random_seed at 1.
  rewrite bind_unfold. unfold read_matrix at 1. simpl. rewrite HX.
  rewrite bind_unfold. unfold alloc at 1. simpl.
  rewrite bind_unfold.
  pose proof (lookup_lt_Some _ _ _ HX) as Hlt.
  change (for_range (seq 0 (shape0 Xv)) _)
    with (for_range (seq 0 (shape0 Xv)) (mar_body X (length (heap σ)) f)).
  rewrite (mar_loop _ X (length (heap σ)) Xv f (shape0 Xv)); simpl.
  - unfold mret, M_ret. f_equal. f_equal.
    + rewrite insert_app_r_alt by done.
      by rewrite Nat.sub_diag, mar_rows_all.
    + unfold shape0. by rewrite firstn_all.
  - by rewrite lookup_app_l.
  - by apply list_lookup_middle.
  - lia.
  - done.
  - done.
Qed.


Lemma remove_large_values_fmap (t : Q) (X : list float) :
  remove_large_values t X = clip t <$> X.
Proof.
  unfold remove_large_values, Np.mask_assign.
  induction X as [|x X IH]; csimpl; [done|]. by rewrite IH.
Qed.

Lemma gt_le (q t1 t2 : Q) :
  (t1 <= t2)%Q → gt (Num q) t2 = true → gt (Num q) t1 = true.
Proof.
  unfold gt. intros Ht. rewrite !negb_true_iff, <-!not_true_iff_false.
  rewrite !Qle_bool_iff. intros H2 H1. apply H2. by eapply Qle_trans.
Qed.

Lemma clip_clip_le (t1 t2 : Q) (x : float) :
  (t1 <= t2)%Q →
  clip t1 (clip t2 x) = clip t1 x ∧ clip t2 (clip t1 x) = clip t1 x.
Proof.
  intros Ht. unfold clip. destruct x as [q|]; [|done].
  destruct (gt (Num q) t2) eqn:H2.
  - rewrite (gt_le q t1 t2 Ht H2). done.
  - destruct (gt (Num q) t1) eqn:H1; [done|]. by rewrite H2.
Qed.









End InjectorFacts.

Module SplitterFacts.
Import Py MissingData.

Lemma take_Ok {A} (idx : list nat) (a r : list A) :
  take idx a = Ok r → Some <$> r = (a !!.) <$> idx.
Proof.
  unfold take. destruct (mapM _ idx) as [k|] eqn:Hk; [|done]. intros [= <-].
  apply mapM_Some in Hk.
  induction Hk as [|i x idx k Hi _ IH]; csimpl; [done|]. by rewrite Hi, IH.
Qed.

End SplitterFacts.

Module RowFacts.
Import Py MissingData RowMechanism InjectorForms.

Lemma remove_y_Ok (x : list float) (y : Z) (z : positions) (t : Q)
    (op : selection → float) (r : list float) :
  remove_y_when_z_is_large x y z t op = Ok r ↔ row_removed y z t op x r.
Proof.
  unfold remove_y_when_z_is_large, row_removed, set_entry. split.
  - destruct (select x z) as [xz|e]; [|done]. intros H. exists xz.
    split; [done|]. destruct (gt (op xz) t); [|by injection H].
    destruct (Py.index (length x) y) as [k|]; [|done].
    injection H as <-. by exists k.
  - intros (xz & -> & H). destruct (gt (op xz) t).
    + destruct H as (k & -> & ->). done.
    + by rewrite H.
Qed.

Lemma row_removed_length y z t op (r r' : list float) :
  row_removed y z t op r r' → length r' = length r.
Proof.
  intros (xz & _ & H). destruct (gt (op xz) t).
  - destruct H as (k & _ & ->). by rewrite length_insert.
  - by rewrite H.
Qed.

End RowFacts.

Section injector_extras.
Import Py MissingData MissingDataSpec MissingDataFacts Examples.
Import RowMechanism InjectorForms InjectorFacts RowFacts.

(** X12.  [remove_large_values] with two thresholds, in either order, does
    what it does with the smaller one alone; in particular, applying it
    twice with one threshold changes nothing more. *)
Theorem X12_remove_large_values_twice (t1 t2 : Q) (X : list float) :
  (t1 <= t2)%Q →
  remove_large_values t1 (remove_large_values t2 X) = remove_large_values t1 X ∧
  remove_large_values t2 (remove_large_values t1 X) = remove_large_values t1 X.
Proof.
  intros Ht. rewrite !remove_large_values_fmap, <-!list_fmap_compose.
  split; apply list_fmap_ext; intros i x _; simpl; by apply clip_clip_le.
Qed.

(** X13.  When every callable returns as many entries as [X] has rows,
    [get_nmar_incomplete_data] returns a new matrix of the shape of [X]
    whose column [i] is what the [i]-th callable returned for column [i] of
    [X], and column [i] of [X] where the list holds [None].  The callables
    are called once each, in column order, on the columns of the caller's
    [X]. *)
Theorem X13_nmar_columns (σ : state) (X : nat) (Xv : matrix)
    (fs : list (option callable)) (random_state : Z) :
  heap σ !! X = Some (Arr2 Xv) →
  well_formed Xv →
  length fs = shape1 Xv →
  returns_columns Xv fs →
  ∃ out σ',
    get_nmar_incomplete_data X fs random_state σ
    = (Ok (length (heap σ)), σ') ∧
    heap σ' = heap σ ++ [Arr2 out] ∧
    shape0 out = shape0 Xv ∧ shape1 out = shape1 Xv ∧ well_formed out ∧
    (∀ i, i < shape1 Xv → column i out = nmar_column Xv fs i) ∧
    trace σ' = trace σ ++ nmar_calls Xv fs (shape1 Xv).
Proof.
  intros HX Hwf Hlen Hfs. eexists _, _.
  split; [by apply get_nmar_Ok|]. simpl. split_and!.
  - done.
  - apply length_nmar_rows.
  - done.
  - by apply nmar_rows_well_formed.
  - intros i Hi. by apply column_nmar_rows.
  - done.
Qed.

(** X14.  With [remove_large_values] at a threshold per column ([None] for
    a column to keep), [get_nmar_incomplete_data] always returns: the new
    matrix holds [np.nan] in place of every entry above the threshold of its
    column, and the entries of [X] everywhere else. *)
Theorem X14_nmar_thresholds (σ : state) (X : nat) (Xv : matrix)
    (thresholds : list (option Q)) (random_state : Z) :
  heap σ !! X = Some (Arr2 Xv) →
  length thresholds = shape1 Xv →
  ∃ σ',
    get_nmar_incomplete_data X ((fun t : option Q => remove_large_values <$> t) <$> thresholds)
      random_state σ
    = (Ok (length (heap σ)), σ') ∧
    heap σ' =
      heap σ ++
      [Arr2 {| ncols := ncols Xv;
               rows := (fun row =>
                          imap (fun j x => match thresholds !! j with
                                           | Some (Some t) => clip t x
                                           | _ => x
                                           end) row) <$> rows Xv |}].
Proof.
  intros HX Hlen. eexists.
  assert (returns_columns Xv ((fun t : option Q => remove_large_values <$> t) <$> thresholds)) as Hfs.
  { intros i f. rewrite list_lookup_fmap.
    destruct (thresholds !! i) as [[t|]|]; simpl; try done. intros [= <-].
    rewrite remove_large_values_fmap. unfold column, shape0.
    by rewrite !length_fmap. }
  split.
  { apply get_nmar_Ok; [done| |done]. by rewrite length_fmap. }
  simpl. do 4 f_equal. unfold nmar_rows. apply list_eq. intros r.
  rewrite list_lookup_imap, list_lookup_fmap.
  destruct (rows Xv !! r) as [row|] eqn:Hr; [|done]. simpl. f_equal.
  apply list_eq. intros j. rewrite !list_lookup_imap.
  destruct (row !! j) as [x|] eqn:Hx; [|done]. simpl. f_equal.
  apply lookup_lt_Some in Hx as Hj.
  destruct (decide (j < shape1 Xv)) as [Hlt|Hge].
  - unfold nmar_cell. rewrite list_lookup_fmap.
    destruct (thresholds !! j) as [[t|]|]; simpl; try done.
    rewrite remove_large_values_fmap. unfold column.
    by rewrite !list_lookup_fmap, Hr; simpl; rewrite Hx.
  - rewrite lookup_ge_None_2; [done|]. lia.
Qed.

(** X15.  When the callable returns rows of the width of [X],
    [get_mar_incomplete_data] returns a new matrix whose rows are what the
    callable returned for the rows of [X], in order; the callable is called
    once per row, in row order, on the rows of the caller's [X]. *)
Theorem X15_mar_rows (σ : state) (X : nat) (Xv : matrix) (f : callable)
    (random_state : Z) :
  heap σ !! X = Some (Arr2 Xv) →
  returns_rows Xv f →
  ∃ σ',
    get_mar_incomplete_data X f random_state σ = (Ok (length (heap σ)), σ') ∧
    heap σ' = heap σ ++ [Arr2 {| ncols := ncols Xv; rows := f <$> rows Xv |}] ∧
    trace σ' = trace σ ++ imap Call (rows Xv).
Proof.
  intros HX Hf. eexists. split; [by apply get_mar_Ok|]. done.
Qed.

(** X16.  [get_mar_incomplete_data] with [remove_y_when_z_is_large] as its
    callable: row by row, the new matrix holds the row of [X] with
    [np.nan] at index [y] when the combined value of the entries at [z]
    exceeds the threshold, and the row of [X] as it is otherwise. *)
Theorem X16_mar_remove_y (σ : state) (X : nat) (Xv : matrix) (f : callable)
    (y : Z) (z : positions) (threshold : Q) (op : selection → float)
    (random_state : Z) :
  heap σ !! X = Some (Arr2 Xv) →
  well_formed Xv →
  Forall (fun r => remove_y_when_z_is_large r y z threshold op = Ok (f r))
         (rows Xv) →
  ∃ out σ',
    get_mar_incomplete_data X f random_state σ = (Ok (length (heap σ)), σ') ∧
    heap σ' = heap σ ++ [Arr2 out] ∧
    shape1 out = shape1 Xv ∧ well_formed out ∧
    Forall2 (row_removed y z threshold op) (rows Xv) (rows out).
Proof.
  intros HX Hwf Hf.
  assert (Forall (fun r => row_removed y z threshold op r (f r)) (rows Xv))
    as Hrows.
  { eapply Forall_impl; [exact Hf|]. intros r Hr. by apply remove_y_Ok. }
  assert (returns_rows Xv f) as Hret.
  { unfold returns_rows, well_formed, shape1 in *.
    rewrite Forall_forall in Hwf, Hrows. apply Forall_forall. intros r Hr.
    rewrite (row_removed_length _ _ _ _ _ _ (Hrows r Hr)). by apply Hwf. }
  eexists _, _. split; [by apply get_mar_Ok|]. simpl. split_and!.
  - done.
  - done.
  - unfold well_formed in *. simpl. rewrite Forall_fmap.
    unfold returns_rows, shape1 in Hret. exact Hret.
  - apply Forall2_fmap_r, Forall_Forall2_diag. exact Hrows.
Qed.

(** X17.  [remove_y_when_z_is_large] raises exactly when an index of [z] is
    out of range, or when [y] is out of range and the combined value exceeds
    the threshold: an out-of-range [y] goes unnoticed on every row whose
    combined value does not exceed the threshold. *)
Theorem X17_remove_y_raises_iff (x : list float) (y : Z) (z : positions)
    (threshold : Q) (op : selection → float) :
  (∃ e, remove_y_when_z_is_large x y z threshold op = Raise e) ↔
  (∃ e, select x z = Raise e) ∨
  (∃ xz, select x z = Ok xz ∧ gt (op xz) threshold = true ∧
         Py.index (length x) y = None).
Proof.
  unfold remove_y_when_z_is_large, set_entry.
  destruct (select x z) as [xz|e].
  - destruct (gt (op xz) threshold) eqn:Hgt.
    + destruct (Py.index (length x) y) as [k|].
      * split; [by intros [e ?]|].
        intros [[e ?]|(xz' & _ & _ & ?)]; done.
      * split; [|by eexists]. intros _. right. by exists xz.
    + split; [by intros [e ?]|].
      intros [[e ?]|(xz' & [= <-] & ? & _)]; [done|congruence].
  - split; [|by eexists]. intros _. left. by eexists.
Qed.


(** X21.  When a callable returns an array that is neither as long as [X]
    has rows nor of length one, [get_nmar_incomplete_data] raises
    [ValueError] at that column: the callables of the columns before it and
    this one have been called, those of the later columns never are. *)
Theorem X21_nmar_callable_wrong_length (σ : state) (X : nat) (Xv : matrix)
    (fs : list (option callable)) (random_state : Z) (k : nat) (f : callable) :
  heap σ !! X = Some (Arr2 Xv) →
  length fs = shape1 Xv →
  fs !! k = Some (Some f) →
  (∀ i g, i < k → fs !! i = Some (Some g) →
          length (g (column i Xv)) = shape0 Xv) →
  length (f (column k Xv)) ≠ shape0 Xv →
  length (f (column k Xv)) ≠ 1 →
  ∃ msg σ',
    get_nmar_incomplete_data X fs random_state σ
    = (Raise (ValueError msg), σ') ∧
    trace σ' = trace σ ++ nmar_calls Xv fs (S k).
Proof.
  intros HX Hlen Hk Hfs Hbad Hbad1. eexists _, _.
  split; [by apply (get_nmar_Raise σ X Xv fs random_state k f)|]. done.
Qed.

End injector_extras.

Section splitter_extras.
Import Py MissingData MissingDataSpec MissingDataFacts SplitterFacts.

Variable stratified_kfold :
  Z → Z → nat → list float → result (list (list nat * list nat)).

(** X18.  In the dataset that [get_incomplete_data_splits] returns, the
    label vectors follow the rows: [y_train] holds the entries of [y] at the
    index sequence [train] at which [X_train_complete] holds the rows of
    [X_complete], [y_test] likewise at [test], and each label vector has as
    many entries as its matrix has rows. *)
Theorem X18_labels_follow_rows (σ σ' : state) (X_complete X_incomplete y : nat)
    (Xc Xi : matrix) (fold num_folds random_state : Z) (d : IncompleteDataset) :
  heap σ !! X_complete = Some (Arr2 Xc) →
  heap σ !! X_incomplete = Some (Arr2 Xi) →
  get_incomplete_data_splits stratified_kfold X_complete X_incomplete y
    fold num_folds random_state σ = (Ok d, σ') →
  ∃ yv train test train_y test_y train_c test_c,
    heap σ !! y = Some (Arr1 yv) ∧
    heap σ' !! y_train d = Some (Arr1 train_y) ∧
    heap σ' !! y_test d = Some (Arr1 test_y) ∧
    heap σ' !! X_train_complete d = Some (Arr2 train_c) ∧
    heap σ' !! X_test_complete d = Some (Arr2 test_c) ∧
    Some <$> train_y = (yv !!.) <$> train ∧
    Some <$> rows train_c = rows_at train Xc ∧
    Some <$> test_y = (yv !!.) <$> test ∧
    Some <$> rows test_c = rows_at test Xc ∧
    length train_y = shape0 train_c ∧ length test_y = shape0 test_c.
Proof.
  intros HXc HXi Hrun.
  destruct (splits_Ok stratified_kfold _ _ _ _ _ _ _ _ _ _ _ HXc HXi Hrun)
    as (yv & splits & train & test & a1 & a2 & a3 & a4 & a5 & a6
        & Hy & _ & _ & H1 & H2 & H3 & H4 & _ & _ & Hheap & ->).
  apply take_rows_Ok in H1 as [_ H1]. apply take_rows_Ok in H3 as [_ H3].
  apply take_Ok in H2. apply take_Ok in H4.
  exists yv, train, test, a2, a4, a1, a3. simpl. rewrite Hheap.
  split_and!; try done.
  - rewrite lookup_app_r by lia.
    by replace (length (heap σ) + 1 - length (heap σ)) with 1 by lia.
  - rewrite lookup_app_r by lia.
    by replace (length (heap σ) + 3 - length (heap σ)) with 3 by lia.
  - by rewrite lookup_app_r, Nat.sub_diag by lia.
  - rewrite lookup_app_r by lia.
    by replace (length (heap σ) + 2 - length (heap σ)) with 2 by lia.
  - apply (f_equal length) in H1. apply (f_equal length) in H2.
    unfold rows_at, shape0 in *.
    rewrite !length_fmap in H1. rewrite !length_fmap in H2. lia.
  - apply (f_equal length) in H3. apply (f_equal length) in H4.
    unfold rows_at, shape0 in *.
    rewrite !length_fmap in H3. rewrite !length_fmap in H4. lia.
Qed.

(** X19.  When scikit-learn yields the folds, a [fold] past the last one
    makes [get_incomplete_data_splits] raise [TypeError] (unpacking the
    [None] that [more_itertools.nth] returns) and a negative [fold] makes it
    raise [ValueError]; either way, no array has been allocated or
    written. *)
Theorem X19_fold_out_of_range (σ : state) (X_complete X_incomplete y : nat)
    (Xc : matrix) (yv : list float) (fold num_folds random_state : Z)
    (splits : list (list nat * list nat)) :
  heap σ !! X_complete = Some (Arr2 Xc) →
  heap σ !! y = Some (Arr1 yv) →
  stratified_kfold num_folds random_state (shape0 Xc) yv = Ok splits →
  ((fold < 0)%Z →
   ∃ msg, get_incomplete_data_splits stratified_kfold X_complete X_incomplete
            y fold num_folds random_state σ = (Raise (ValueError msg), σ)) ∧
  ((Z.of_nat (length splits) ≤ fold)%Z →
   ∃ msg, get_incomplete_data_splits stratified_kfold X_complete X_incomplete
            y fold num_folds random_state σ = (Raise (TypeError msg), σ)).
Proof.
  intros HXc Hy Hsplits.
  unfold get_incomplete_data_splits, read_matrix, read_vector, lift, raise,
    mbind, M_bind.
  rewrite HXc, Hy, Hsplits. unfold nth. split; intros Hfold.
  - rewrite decide_True by done. by eexists.
  - rewrite decide_False by lia.
    rewrite lookup_ge_None_2 by lia. by eexists.
Qed.

End splitter_extras.

Section injector_witnesses.
Import Py MissingData MissingDataSpec Examples.
Import RowMechanism InjectorForms RowExamples.
Local Open Scope Q_scope.

Lemma X12_remove_large_values_twice_witness :
  let X := [Num 1; Num (2 # 10); Nan; Num 5; Num 4] in
  (3 # 10) <= 4 ∧
  remove_large_values (3 # 10) (remove_large_values 4 X)
  = remove_large_values (3 # 10) X ∧
  remove_large_values 4 (remove_large_values (3 # 10) X)
  = remove_large_values (3 # 10) X.
Proof.
  intros X.
  assert ((3 # 10) <= 4) as H by (unfold Qle; simpl; lia).
  split; [exact H|].
  exact (X12_remove_large_values_twice (3 # 10) 4 X H).
Defined.

(** A 3×2 matrix, the first column kept and the values above 4 removed from
    the second. *)
Lemma X13_nmar_columns_witness :
  let X := counting_matrix 3 2 in
  let σ := initial [Arr2 X] 0 in
  let fs := [None; Some (remove_large_values 4)] in
  heap σ !! 0%nat = Some (Arr2 X) ∧
  well_formed X ∧
  length fs = shape1 X ∧
  returns_columns X fs ∧
  ∃ out σ',
    get_nmar_incomplete_data 0 fs 8675309 σ = (Ok (length (heap σ)), σ') ∧
    heap σ' = heap σ ++ [Arr2 out] ∧
    shape0 out = shape0 X ∧ shape1 out = shape1 X ∧ well_formed out ∧
    (∀ i, (i < shape1 X)%nat → column i out = nmar_column X fs i) ∧
    trace σ' = trace σ ++ nmar_calls X fs (shape1 X).
Proof.
  intros X σ fs.
  assert (heap σ !! 0%nat = Some (Arr2 X)) as H1 by reflexivity.
  assert (well_formed X) as H2.
  { refine (bool_decide_unpack _ _). vm_compute. exact I. }
  assert (length fs = shape1 X) as H3 by reflexivity.
  assert (returns_columns X fs) as H4.
  { intros [|[|i]] f; simpl; intros [= <-]. reflexivity. }
  split; [exact H1|]. split; [exact H2|]. split; [exact H3|].
  split; [exact H4|].
  exact (X13_nmar_columns σ 0 X fs 8675309 H1 H2 H3 H4).
Defined.

Lemma X14_nmar_thresholds_witness :
  let X := counting_matrix 3 2 in
  let σ := initial [Arr2 X] 0 in
  let thresholds := [None; Some 4] in
  heap σ !! 0%nat = Some (Arr2 X) ∧
  length thresholds = shape1 X ∧
  ∃ σ',
    get_nmar_incomplete_data 0
      ((fun t : option Q => remove_large_values <$> t) <$> thresholds)
      8675309 σ
    = (Ok (length (heap σ)), σ') ∧
    heap σ' =
      heap σ ++
      [Arr2 {| ncols := ncols X;
               rows := (fun row =>
                          imap (fun j x => match thresholds !! j with
                                           | Some (Some t) => clip t x
                                           | _ => x
                                           end) row) <$> rows X |}].
Proof.
  intros X σ thresholds.
  assert (heap σ !! 0%nat = Some (Arr2 X)) as H1 by reflexivity.
  assert (length thresholds = shape1 X) as H2 by reflexivity.
  split; [exact H1|]. split; [exact H2|].
  exact (X14_nmar_thresholds σ 0 X thresholds 8675309 H1 H2).
Defined.

(** Row by row, the values above 2 removed. *)
Lemma X15_mar_rows_witness :
  let X := counting_matrix 3 2 in
  let σ := initial [Arr2 X] 0 in
  let f := remove_large_values 2 in
  heap σ !! 0%nat = Some (Arr2 X) ∧
  returns_rows X f ∧
  ∃ σ',
    get_mar_incomplete_data 0 f 8675309 σ = (Ok (length (heap σ)), σ') ∧
    heap σ' = heap σ ++ [Arr2 {| ncols := ncols X; rows := f <$> rows X |}] ∧
    trace σ' = trace σ ++ imap Call (rows X).
Proof.
  intros X σ f.
  assert (heap σ !! 0%nat = Some (Arr2 X)) as H1 by reflexivity.
  assert (returns_rows X f) as H2.
  { refine (bool_decide_unpack _ _). vm_compute. exact I. }
  split; [exact H1|]. split; [exact H2|].
  exact (X15_mar_rows σ 0 X f 8675309 H1 H2).
Defined.

(** Remove [x[1]] when [x[0]] exceeds 1: the last row of the three. *)
Lemma X16_mar_remove_y_witness :
  let X := counting_matrix 3 2 in
  let σ := initial [Arr2 X] 0 in
  let z := Positions [0%Z] in
  let f := partial_remove_y 1 z 1 first_selected in
  heap σ !! 0%nat = Some (Arr2 X) ∧
  well_formed X ∧
  Forall (fun r => remove_y_when_z_is_large r 1 z 1 first_selected = Ok (f r))
         (rows X) ∧
  ∃ out σ',
    get_mar_incomplete_data 0 f 8675309 σ = (Ok (length (heap σ)), σ') ∧
    heap σ' = heap σ ++ [Arr2 out] ∧
    shape1 out = shape1 X ∧ well_formed out ∧
    Forall2 (row_removed 1 z 1 first_selected) (rows X) (rows out).
Proof.
  intros X σ z f.
  assert (heap σ !! 0%nat = Some (Arr2 X)) as H1 by reflexivity.
  assert (well_formed X) as H2.
  { refine (bool_decide_unpack _ _). vm_compute. exact I. }
  assert (Forall (fun r => remove_y_when_z_is_large r 1 z 1 first_selected
                           = Ok (f r)) (rows X)) as H3.
  { repeat constructor. }
  split; [exact H1|]. split; [exact H2|]. split; [exact H3|].
  exact (X16_mar_remove_y σ 0 X f 1 z 1 first_selected 8675309 H1 H2 H3).
Defined.

(** The second callable returns two entries for a column of three. *)
Lemma X21_nmar_callable_wrong_length_witness :
  let X := counting_matrix 3 3 in
  let σ := initial [Arr2 X] 0 in
  let g : callable := fun _ => [Num 1; Num 2] in
  let fs := [Some (remove_large_values 4); Some g; Some (remove_large_values 4)] in
  heap σ !! 0%nat = Some (Arr2 X) ∧
  length fs = shape1 X ∧
  fs !! 1%nat = Some (Some g) ∧
  (∀ i h, (i < 1)%nat → fs !! i = Some (Some h) →
          length (h (column i X)) = shape0 X) ∧
  length (g (column 1 X)) ≠ shape0 X ∧
  length (g (column 1 X)) ≠ 1%nat ∧
  ∃ msg σ',
    get_nmar_incomplete_data 0 fs 8675309 σ = (Raise (ValueError msg), σ') ∧
    trace σ' = trace σ ++ nmar_calls X fs 2.
Proof.
  intros X σ g fs.
  assert (heap σ !! 0%nat = Some (Arr2 X)) as H1 by reflexivity.
  assert (length fs = shape1 X) as H2 by reflexivity.
  assert (fs !! 1%nat = Some (Some g)) as H3 by reflexivity.
  assert (∀ i h, (i < 1)%nat → fs !! i = Some (Some h) →
                 length (h (column i X)) = shape0 X) as H4.
  { intros [|i] h Hi; [|lia]. simpl. intros [= <-]. reflexivity. }
  assert (length (g (column 1 X)) ≠ shape0 X) as H5 by (vm_compute; lia).
  assert (length (g (column 1 X)) ≠ 1%nat) as H6 by (vm_compute; lia).
  split; [exact H1|]. split; [exact H2|]. split; [exact H3|].
  split; [exact H4|]. split; [exact H5|]. split; [exact H6|].
  exact (X21_nmar_callable_wrong_length σ 0 X fs 8675309 1 g
           H1 H2 H3 H4 H5 H6).
Defined.

Lemma X18_labels_follow_rows_witness :
  let Xc := counting_matrix 6 2 in
  let Xi := masked [[true; false]; [false; false]; [false; true];
                    [false; false]; [true; true]; [false; false]] Xc in
  let σ := initial [Arr2 Xc; Arr2 Xi;
                    Arr1 [Num 0; Num 1; Num 0; Num 1; Num 0; Num 1]] 0 in
  let run := get_incomplete_data_splits dealt_kfold 0 1 2 1 3 8675309 σ in
  let d := {| X_train_complete := 3; X_train_incomplete := 7;
              X_test_complete := 5; X_test_incomplete := 8;
              y_train := 4; y_test := 6 |} in
  heap σ !! 0%nat = Some (Arr2 Xc) ∧
  heap σ !! 1%nat = Some (Arr2 Xi) ∧
  run = (Ok d, run.2) ∧
  ∃ yv train test train_y test_y train_c test_c,
    heap σ !! 2%nat = Some (Arr1 yv) ∧
    heap run.2 !! y_train d = Some (Arr1 train_y) ∧
    heap run.2 !! y_test d = Some (Arr1 test_y) ∧
    heap run.2 !! X_train_complete d = Some (Arr2 train_c) ∧
    heap run.2 !! X_test_complete d = Some (Arr2 test_c) ∧
    Some <$> train_y = (yv !!.) <$> train ∧
    Some <$> rows train_c = rows_at train Xc ∧
    Some <$> test_y = (yv !!.) <$> test ∧
    Some <$> rows test_c = rows_at test Xc ∧
    length train_y = shape0 train_c ∧ length test_y = shape0 test_c.
Proof.
  intros Xc Xi σ run d.
  assert (heap σ !! 0%nat = Some (Arr2 Xc)) as H1 by reflexivity.
  assert (heap σ !! 1%nat = Some (Arr2 Xi)) as H2 by reflexivity.
  assert (run = (Ok d, run.2)) as H3 by reflexivity.
  split; [exact H1|]. split; [exact H2|]. split; [exact H3|].
  exact (X18_labels_follow_rows dealt_kfold σ run.2 0 1 2 Xc Xi 1 3 8675309 d
           H1 H2 H3).
Defined.

(** Three folds: fold 5 does not exist, fold -1 is refused. *)
Lemma X19_fold_out_of_range_witness :
  let Xc := counting_matrix 6 2 in
  let yv := [Num 0; Num 1; Num 0; Num 1; Num 0; Num 1] in
  let σ := initial [Arr2 Xc; Arr2 Xc; Arr1 yv] 0 in
  let splits := match dealt_kfold 3 8675309 6 yv with
                | Ok s => s
                | Raise _ => []
                end in
  heap σ !! 0%nat = Some (Arr2 Xc) ∧
  heap σ !! 2%nat = Some (Arr1 yv) ∧
  dealt_kfold 3 8675309 (shape0 Xc) yv = Ok splits ∧
  (∃ msg, get_incomplete_data_splits dealt_kfold 0 1 2 (-1) 3 8675309 σ
          = (Raise (ValueError msg), σ)) ∧
  (∃ msg, get_incomplete_data_splits dealt_kfold 0 1 2 5 3 8675309 σ
          = (Raise (TypeError msg), σ)).
Proof.
  intros Xc yv σ splits.
  assert (heap σ !! 0%nat = Some (Arr2 Xc)) as H1 by reflexivity.
  assert (heap σ !! 2%nat = Some (Arr1 yv)) as H2 by reflexivity.
  assert (dealt_kfold 3 8675309 (shape0 Xc) yv = Ok splits) as H3
    by reflexivity.
  split; [exact H1|]. split; [exact H2|]. split; [exact H3|]. split.
  - refine (proj1 (X19_fold_out_of_range dealt_kfold σ 0 1 2 Xc yv (-1) 3
                     8675309 splits H1 H2 H3) _). lia.
  - refine (proj2 (X19_fold_out_of_range dealt_kfold σ 0 1 2 Xc yv 5 3
                     8675309 splits H1 H2 H3) _). simpl. lia.
Defined.

End injector_witnesses.
